(** * spikefinder: the model builder and the training driver of [model.py]

    The script assembles a Keras graph (inception cells, one bidirectional
    LSTM, a per-timestep softmax head) and trains it from a generator of
    (dataset id, calcium, spikes) tuples.  The development follows the file
    top to bottom:

    - [Keras]: the layer vocabulary the script uses and the graph that layer
      calls build, as a state monad over the list of created nodes;
    - [Builder]: [conv_bn], [inception_cell], [build_model];
    - [Backend]: the tensor primitives ([K.argmax], [K.mean], [K.sum], ...)
      on rational data, with real numbers where a square root or an
      exponential enters;
    - [Driver]: the body of [if __name__ == '__main__'].

    Floating point arithmetic is idealised: finite floats are rationals and
    the operations on them are exact. *)

From Stdlib Require Import ZArith QArith Qreals Reals Lia Lra List Bool DecimalString.
From Stdlib Require DecimalNat.
From stdpp Require Import base list strings gmap.

Local Open Scope nat_scope.

(** ** The framework's graph of layers *)

Module Keras.

Inductive dtype := int32 | float32.

Inductive activation := linear | relu | softmax.

Inductive border_mode := same | valid.

(** The layer constructors the script imports and calls, with the keyword
    arguments it passes (and the framework defaults it relies on spelled out
    at the call sites). *)
Inductive layer :=
| Input (shape : list nat) (dt : dtype) (name : string)
| Convolution1D (nb_filter filter_length : nat) (act : activation)
                (bm : border_mode)
| BatchNormalization (mode : nat) (axis : Z)
| AveragePooling1D (pool_length stride : nat) (bm : border_mode)
| RepeatVector (n : nat)
| Flatten
| Embedding (input_dim output_dim : nat) (init : string)
| Merge (mode : string) (concat_axis : Z)
| LSTM (output_dim : nat) (return_sequences : bool)
| Bidirectional (inner : layer)
| Dense (output_dim : nat) (act : activation) (W_regularizer : option string)
| TimeDistributed (inner : layer).

(** A symbolic tensor is the index of the node that produced it. *)
Abbreviation tensor := nat (only parsing).

Record node := Node { op : layer; args : list tensor }.

Abbreviation graph := (list node) (only parsing).

(** Calling a layer on tensors appends one node to the graph under
    construction and returns the tensor it produces. *)
Definition K (A : Type) : Type := graph -> A * graph.

Definition ret {A} (a : A) : K A := fun g => (a, g).

Definition bind {A B} (m : K A) (k : A -> K B) : K B :=
  fun g => let '(a, g') := m g in k a g'.

Definition call (l : layer) (xs : list tensor) : K tensor :=
  fun g => (length g, g ++ [Node l xs]).

(** [for _ in range(n): x = body(x)] *)
Fixpoint for_range {A} (n : nat) (body : A -> K A) (x : A) : K A :=
  match n with
  | 0 => ret x
  | S n' => bind (body x) (for_range n' body)
  end.

Record model := Model {
  input : list tensor;
  output : list tensor;
  layers : graph
}.

End Keras.

Import Keras.

Notation "x <- c ;; k" := (bind c (fun x => k))
  (at level 100, c at next level, right associativity).

(** ** The model builder *)

Module Builder.

(** Applies convolution and batch normalization. *)
Definition conv_bn (x : tensor) (nb_filter filter_length : nat) : K tensor :=
  x <- call (Convolution1D nb_filter filter_length relu same) [x] ;;
  x <- call (BatchNormalization 0 1) [x] ;;
  ret x.

(** Applies a single inception cell. *)
Definition inception_cell (x : tensor) : K tensor :=
  branch1x1 <- conv_bn x 64 1 ;;
  branch5x5 <- conv_bn x 48 1 ;;
  branch5x5 <- conv_bn branch5x5 64 5 ;;
  branch3x3dbl <- conv_bn x 64 1 ;;
  branch3x3dbl <- conv_bn branch3x3dbl 96 3 ;;
  branch3x3dbl <- conv_bn branch3x3dbl 96 3 ;;
  branch_pool <- call (AveragePooling1D 3 1 same) [x] ;;
  branch_pool <- conv_bn branch_pool 32 1 ;;
  x <- call (Merge "concat" (-1))
            [branch1x1; branch5x5; branch3x3dbl; branch_pool] ;;
  ret x.

Definition build_model_graph (num_timesteps : nat)
  : K (list tensor * list tensor) :=
  dataset <- call (Input [1] int32 "dataset") [] ;;
  calcium <- call (Input [num_timesteps; 1] float32 "calcium") [] ;;
  repeated <- call (RepeatVector num_timesteps) [dataset] ;;
  flat <- call Flatten [repeated] ;;
  data_emb <- call (Embedding 10 1 "orthogonal") [flat] ;;
  calcium_norm <- call (BatchNormalization 2 1) [calcium] ;;
  hidden <- call (Merge "concat" (-1)) [calcium_norm; data_emb] ;;
  hidden <- for_range 3 inception_cell hidden ;;
  hidden <- call (Bidirectional (LSTM 64 true)) [hidden] ;;
  output <- call (TimeDistributed (Dense 7 softmax (Some "l2"))) [hidden] ;;
  ret ([dataset; calcium], [output]).

Definition build_model (num_timesteps : nat) : model :=
  let '((ins, outs), g) := build_model_graph num_timesteps [] in
  Model ins outs g.

End Builder.

Import Builder.

(** ** Reading a built graph back *)

Module Topology.

#[global] Instance dtype_eq_dec : EqDecision dtype.
Proof. solve_decision. Defined.

#[global] Instance activation_eq_dec : EqDecision activation.
Proof. solve_decision. Defined.

#[global] Instance border_mode_eq_dec : EqDecision border_mode.
Proof. solve_decision. Defined.

Lemma layer_eq_dec (a b : layer) : {a = b} + {a <> b}.
Proof.
  revert b; induction a; intros []; try (right; discriminate).
  all: try (left; reflexivity).
  all: try solve [ (match goal with
         | IH : forall b, {_ = b} + {_ <> b} |- context [?c ?x = ?c ?y] =>
             destruct (IH y) as [->|Hne];
             [left; reflexivity | right; intros [=]; contradiction]
         end) ].
  all: solve_decision.
Defined.

#[global] Instance layer_eq : EqDecision layer := layer_eq_dec.

(** The kind of a layer, forgetting its parameters. *)
Definition kind (l : layer) : string :=
  match l with
  | Input _ _ _ => "Input"
  | Convolution1D _ _ _ _ => "Convolution1D"
  | BatchNormalization _ _ => "BatchNormalization"
  | AveragePooling1D _ _ _ => "AveragePooling1D"
  | RepeatVector _ => "RepeatVector"
  | Flatten => "Flatten"
  | Embedding _ _ _ => "Embedding"
  | Merge _ _ => "Merge"
  | LSTM _ _ => "LSTM"
  | Bidirectional _ => "Bidirectional"
  | Dense _ _ _ => "Dense"
  | TimeDistributed _ => "TimeDistributed"
  end.

(** Which layer kinds feed which: the wiring of the graph. *)
Definition wiring (g : graph) : list (string * list tensor) :=
  map (fun n => (kind (op n), args n)) g.

Definition count_kind (k : string) (g : graph) : nat :=
  length (filter (fun n => kind (op n) = k) g).

Definition input_name (g : graph) (t : tensor) : option string :=
  match g !! t with
  | Some (Node (Input _ _ name) []) => Some name
  | _ => None
  end.

(** The maximal chain of convolution, normalisation and pooling layers that
    ends in tensor [b]: the tensor the chain starts from, and its layers in
    the order they are applied. *)
Fixpoint branch_chain (fuel : nat) (g : graph) (b : tensor)
  : tensor * list layer :=
  match fuel with
  | 0 => (b, [])
  | S fuel' =>
      match g !! b with
      | Some (Node (Convolution1D _ _ _ _ as l) [x])
      | Some (Node (BatchNormalization _ _ as l) [x])
      | Some (Node (AveragePooling1D _ _ _ as l) [x]) =>
          let '(x0, ls) := branch_chain fuel' g x in (x0, ls ++ [l])
      | _ => (b, [])
      end
  end.

(** A merge node seen as a cell: the common tensor its branches start from,
    the merge mode and axis, and the chain of each branch. *)
Definition cell_at (g : graph) (out : tensor)
  : option (tensor * (string * Z) * list (list layer)) :=
  match g !! out with
  | Some (Node (Merge mode axis) (b :: bs)) =>
      let cs := map (branch_chain (length g) g) (b :: bs) in
      let x := fst (branch_chain (length g) g b) in
      if forallb (fun c => Nat.eqb (fst c) x) cs
      then Some (x, (mode, axis), map snd cs)
      else None
  | _ => None
  end.

(** The four branches of an inception cell, as [inception_cell] lays them
    out. *)
Definition inception_branches : list (list layer) :=
  [ [Convolution1D 64 1 relu same; BatchNormalization 0 1];
    [Convolution1D 48 1 relu same; BatchNormalization 0 1;
     Convolution1D 64 5 relu same; BatchNormalization 0 1];
    [Convolution1D 64 1 relu same; BatchNormalization 0 1;
     Convolution1D 96 3 relu same; BatchNormalization 0 1;
     Convolution1D 96 3 relu same; BatchNormalization 0 1];
    [AveragePooling1D 3 1 same;
     Convolution1D 32 1 relu same; BatchNormalization 0 1] ].

(** Window lengths along a branch: the filter length of each convolution
    and the pool length of each pooling layer. *)
Definition window_lengths (chain : list layer) : list nat :=
  omap (fun l => match l with
                 | Convolution1D _ fl _ _ => Some fl
                 | AveragePooling1D pl _ _ => Some pl
                 | _ => None
                 end) chain.

Definition is_inception_cell (g : graph) (out : tensor) : option tensor :=
  match cell_at g out with
  | Some (x, (mode, axis), chains) =>
      if decide (mode = "concat" /\ axis = (-1)%Z /\
                 chains = inception_branches)
      then Some x else None
  | None => None
  end.

(** Peels inception cells off tensor [t]: how many are stacked directly
    below it, and the tensor under the lowest one. *)
Fixpoint peel_cells (fuel : nat) (g : graph) (t : tensor) : nat * tensor :=
  match fuel with
  | 0 => (0, t)
  | S fuel' =>
      match is_inception_cell g t with
      | Some x => let '(n, base) := peel_cells fuel' g x in (S n, base)
      | None => (0, t)
      end
  end.

End Topology.

Import Topology.

(** ** Shapes of the framework's layers *)

Module Shapes.

(** The shape of one sample, without the batch axis. *)
Abbreviation shape := (list nat) (only parsing).

(** Modelled from the spec: the layer primitives belong to the framework,
    not to this repository.  The spec has them enforce tensor shape
    consistency; the rules below are the framework's documented output
    lengths (a convolution or pooling window with border mode [same] keeps
    the length, [valid] loses [filter_size - 1] steps, then the stride
    divides, rounding up). *)
Definition conv_output_length (input_length filter_size : nat)
    (bm : border_mode) (stride : nat) : nat :=
  let output_length :=
    match bm with
    | same => input_length
    | valid => input_length - filter_size + 1
    end in
  (output_length + stride - 1) / stride.

(** Position of a framework axis (which counts the batch axis as 0 and
    negative axes from the end) inside a sample shape of rank [rank]. *)
Definition axis_index (axis : Z) (rank : nat) : option nat :=
  let ndim := Z.of_nat (S rank) in
  let a := (if axis <? 0 then axis + ndim else axis)%Z in
  if ((1 <=? a) && (a <? ndim))%Z then Some (Z.to_nat (a - 1)) else None.

(** Modelled from the spec: concatenation of tensors along one axis, which
    the framework allows when the shapes agree on every other axis. *)
Definition concat_shapes (axis : Z) (ins : list shape) : option shape :=
  match ins with
  | [] => None
  | s :: rest =>
      match axis_index axis (length s) with
      | None => None
      | Some k =>
          if forallb (fun s' => bool_decide (delete k s' = delete k s)) rest
          then Some (<[k := list_sum (map (fun s' => nth k s' 0) ins)]> s)
          else None
      end
  end.

(** Modelled from the spec: the output shape of each layer of the framework
    on the shapes of its inputs; [None] is the framework's shape-mismatch
    exception. *)
Fixpoint output_shape (l : layer) (ins : list shape) : option shape :=
  match l, ins with
  | Input s _ _, [] => Some s
  | Convolution1D nb_filter filter_length _ bm, [[steps; _]] =>
      Some [conv_output_length steps filter_length bm 1; nb_filter]
  | BatchNormalization _ _, [s] => Some s
  | AveragePooling1D pool_length stride bm, [[steps; features]] =>
      Some [conv_output_length steps pool_length bm stride; features]
  | RepeatVector n, [[features]] => Some [n; features]
  | Flatten, [s] => Some [fold_right Nat.mul 1 s]
  | Embedding _ output_dim _, [[input_length]] =>
      Some [input_length; output_dim]
  | Merge mode axis, _ =>
      if decide (mode = "concat") then concat_shapes axis ins else None
  | LSTM output_dim return_sequences, [[steps; _]] =>
      Some (if return_sequences then [steps; output_dim] else [output_dim])
  | Bidirectional inner, _ =>
      match output_shape inner ins with
      | Some s =>
          match reverse s with
          | d :: front => Some (reverse (2 * d :: front))
          | [] => None
          end
      | None => None
      end
  | Dense output_dim _ _, [[_]] => Some [output_dim]
  | TimeDistributed inner, [steps :: s] =>
      match output_shape inner [s] with
      | Some s' => Some (steps :: s')
      | None => None
      end
  | _, _ => None
  end.

(** Shapes of the arguments of a node, when all of them are known. *)
Fixpoint arg_shapes (known : list (option shape)) (xs : list tensor)
  : option (list shape) :=
  match xs with
  | [] => Some []
  | x :: xs' =>
      match known !! x, arg_shapes known xs' with
      | Some (Some s), Some ss => Some (s :: ss)
      | _, _ => None
      end
  end.

Definition infer_node (known : list (option shape)) (n : node)
  : list (option shape) :=
  known ++ [match arg_shapes known (args n) with
            | Some ins => output_shape (op n) ins
            | None => None
            end].

(** Shape inference runs over the nodes in creation order. *)
Definition infer (g : graph) : list (option shape) :=
  fold_left infer_node g [].

Definition shape_of (g : graph) (t : tensor) : option shape :=
  match infer g !! t with
  | Some (Some s) => Some s
  | _ => None
  end.

(** The graph [g'] knows every shape the graph [g] knows. *)
Definition extends (g g' : graph) : Prop :=
  forall t s, shape_of g t = Some s -> shape_of g' t = Some s.

(** The shape of a batch of [batch] samples. *)
Definition batch_shape (batch : nat) (s : option shape) : option shape :=
  match s with Some s => Some (batch :: s) | None => None end.

End Shapes.

Import Shapes.

(** ** Values that flow through the two ends of the model *)

Module Forward.

Definition Rsum (l : list R) : R := fold_right Rplus 0%R l.

Definition dot (w x : list R) : R := Rsum (zip_with Rmult w x).

(** Modelled from the spec: the activations of the framework; softmax
    turns a vector of scores into [exp] of each score over the sum of
    them. *)
Definition activate (a : activation) (z : list R) : list R :=
  match a with
  | linear => z
  | relu => map (Rmax 0) z
  | softmax => let e := map exp z in map (fun v => (v / Rsum e)%R) e
  end.

(** Trained parameters of a dense layer: for each output unit its incoming
    weights and its bias. *)
Record dense_weights := DenseWeights {
  kernel : nat -> list R;
  bias : nat -> R
}.

(** Modelled from the spec: a dense layer computes, for each of its
    [output_dim] units, the weighted sum of the features plus the bias, and
    applies its activation to the vector of units. *)
Definition dense (output_dim : nat) (a : activation) (p : dense_weights)
    (x : list R) : list R :=
  activate a
    (map (fun j => (dot (kernel p j) x + bias p j)%R) (seq 0 output_dim)).

(** Modelled from the spec: a time-distributed layer is applied
    independently to each timestep of a sequence and produces one output per
    timestep. *)
Definition head_forward (l : layer) (p : dense_weights)
    (h : list (list R)) : option (list (list R)) :=
  match l with
  | TimeDistributed (Dense output_dim a _) => Some (map (dense output_dim a p) h)
  | _ => None
  end.

(** What the model returns for a batch, given the features that reach its
    output layer (one sequence of feature vectors per sample). *)
Definition predict (m : model) (p : dense_weights)
    (hidden : list (list (list R))) : option (list (list (list R))) :=
  match output m with
  | [out] =>
      match layers m !! out with
      | Some n => mapM (head_forward (op n) p) hidden
      | None => None
      end
  | _ => None
  end.

(** Modelled from the spec: an embedding layer holds a table with one row
    per identifier [0 .. input_dim - 1] and returns the row of the
    identifier it is given; an identifier outside the table has no row. *)
Definition embedding_lookup (table : list (list R)) (i : Z)
  : option (list R) :=
  if (i <? 0)%Z then None else table !! Z.to_nat i.

(** The integers a tensor on the [dataset] side holds for one sample whose
    dataset identifier is [dataset], flattened: the input holds the
    identifier, [RepeatVector n] repeats its argument [n] times, [Flatten]
    keeps the contents. *)
Fixpoint int_value (fuel : nat) (g : graph) (t : tensor) (dataset : Z)
  : option (list Z) :=
  match fuel with
  | 0 => None
  | S fuel' =>
      match g !! t with
      | Some (Node (Input _ int32 _) []) => Some [dataset]
      | Some (Node (RepeatVector n) [x]) =>
          match int_value fuel' g x dataset with
          | Some v => Some (concat (replicate n v))
          | None => None
          end
      | Some (Node Flatten [x]) => int_value fuel' g x dataset
      | _ => None
      end
  end.

(** The embedding layer of a graph and the tensor it is applied to. *)
Definition embedding_of (g : graph) : option (layer * tensor) :=
  match filter (fun n => kind (op n) = "Embedding") g with
  | Node l [x] :: _ => Some (l, x)
  | _ => None
  end.

(** The embedded dataset channel of one sample. *)
Definition embed_dataset (m : model) (table : list (list R)) (dataset : Z)
  : option (list (list R)) :=
  match embedding_of (layers m) with
  | Some (_, x) =>
      match int_value (length (layers m)) (layers m) x dataset with
      | Some ids => mapM (embedding_lookup table) ids
      | None => None
      end
  | None => None
  end.

End Forward.

Import Forward.

(** ** Backend tensor primitives ([keras.backend as K]) *)

Module Backend.

(** Data tensors: batch, time, class.  Entries are finite floats, read as
    rationals. *)
Abbreviation tensor2 := (list (list Q)) (only parsing).
Abbreviation tensor3 := (list (list (list Q))) (only parsing).

Definition Qsum (l : list Q) : Q := fold_right Qplus 0%Q l.

(** [K.argmax(., axis=-1)] on one row: the index of the first entry that
    no other entry exceeds. *)
Fixpoint argmax_from (best : Q) (best_i i : nat) (row : list Q) : nat :=
  match row with
  | [] => best_i
  | x :: row' =>
      if Qle_bool x best
      then argmax_from best best_i (S i) row'
      else argmax_from x i (S i) row'
  end.

Definition argmax (row : list Q) : nat :=
  match row with
  | [] => 0
  | x :: row' => argmax_from x 0 1 row'
  end.

Definition K_argmax (y : tensor3) : list (list nat) := map (map argmax) y.

(** [K.cast(., 'float32')] of class indices. *)
Definition K_cast (y : list (list nat)) : tensor2 :=
  map (map (fun k => inject_Z (Z.of_nat k))) y.

(** [K.mean(.)] without an axis: the mean of all the entries.  On an empty
    tensor the framework yields NaN where the division below yields 0; the
    properties that depend on a mean assume a non-empty tensor. *)
Definition mean (l : list Q) : Q :=
  (Qsum l / inject_Z (Z.of_nat (length l)))%Q.

Definition K_mean (x : tensor2) : Q := mean (concat x).

(** Tensor minus a scalar, broadcast over every entry. *)
Definition sub2 (x : tensor2) (m : Q) : tensor2 :=
  map (map (fun v => (v - m)%Q)) x.

Definition sub3 (x : tensor3) (m : Q) : tensor3 := map (fun s => sub2 s m) x.

(** Entrywise product.  The framework refuses operands whose shapes differ;
    the metrics and the loss are called on a pair of tensors of one shape,
    on which [zip_with] drops nothing. *)
Definition mul2 (x y : tensor2) : tensor2 := zip_with (zip_with Qmult) x y.

Definition mul3 (x y : tensor3) : tensor3 := zip_with mul2 x y.

(** [K.square] *)
Definition square2 (x : tensor2) : tensor2 :=
  map (map (fun v => (v * v)%Q)) x.

Definition square3 (x : tensor3) : tensor3 := map square2 x.

(** [K.sum(., axis=-1)]: sums the last axis away. *)
Definition sum_last2 (x : tensor2) : list Q := map Qsum x.

Definition sum_last3 (x : tensor3) : tensor2 := map sum_last2 x.

(** [K.equal(y, i)] followed by the cast of booleans to floats that
    [K.mean] performs. *)
Definition K_equal (y : list (list nat)) (i : nat) : tensor2 :=
  map (map (fun k => if Nat.eqb k i then 1%Q else 0%Q)) y.

(** The entry that [K.equal] followed by the cast produces for label [k]
    and bin [i]. *)
Definition indicator (i k : nat) : Q := if Nat.eqb k i then 1%Q else 0%Q.

(** The constant [1e-12]. *)
Definition epsilon : R := 1e-12%R.

(** [n / (K.sqrt(d) + 1e-12)], entry by entry. *)
Definition quotient (n d : list Q) : list R :=
  zip_with (fun n d => (Q2R n / (sqrt (Q2R d) + epsilon))%R) n d.

Definition Rmean (l : list R) : R := (Rsum l / INR (length l))%R.

(** Python's [str] of a non-negative integer. *)
Definition str (i : nat) : string := NilZero.string_of_uint (Nat.to_uint i).

End Backend.

Import Backend.

(** ** The training driver *)

Module Driver.

Definition num_timesteps : nat := 100.
Definition batches_per_epoch : nat := 1000.
Definition nb_epoch : nat := 10.
Definition batch_size : nat := 32.

(** *** Metrics and loss *)

(** Numerators and denominator radicands of [pearson_corr], one per
    sample. *)
Definition pearson_corr_nd (y_true y_pred : tensor3) : list Q * list Q :=
  let y_true := K_cast (K_argmax y_true) in
  let y_pred := K_cast (K_argmax y_pred) in
  let x_mean := sub2 y_true (K_mean y_true) in
  let y_mean := sub2 y_pred (K_mean y_pred) in
  let n := sum_last2 (mul2 x_mean y_mean) in
  let d := zip_with Qmult (sum_last2 (square2 x_mean))
                          (sum_last2 (square2 y_mean)) in
  (n, d).

(** Calculates Pearson correlation as a metric. *)
Definition pearson_corr (y_true y_pred : tensor3) : R :=
  let '(n, d) := pearson_corr_nd y_true y_pred in
  Rmean (quotient n d).

(** Numerators and denominator radicands of [pearson_loss]. *)
Definition pearson_loss_nd (y_true y_pred : tensor3) : list Q * list Q :=
  let x_mean := sub3 y_true (K_mean (K_cast (K_argmax y_true))) in
  let y_mean := sub3 y_pred (K_mean (K_cast (K_argmax y_pred))) in
  let n := sum_last2 (sum_last3 (mul3 x_mean y_mean)) in
  let d := zip_with Qmult (sum_last2 (sum_last3 (square3 x_mean)))
                          (sum_last2 (sum_last3 (square3 y_mean))) in
  (n, d).

(** Loss function to maximize pearson correlation. IN PROGRESS *)
Definition pearson_loss (y_true y_pred : tensor3) : R :=
  let '(n, d) := pearson_loss_nd y_true y_pred in
  (- Rmean (quotient n d))%R.

(** Metric that keeps track of percentage of outputs in each bin. *)
Definition bin_percent (i : nat) : tensor3 -> tensor3 -> gmap string Q :=
  fun _ y_pred =>
    let y_pred := K_argmax y_pred in
    {[ str i := K_mean (K_equal y_pred i) ]}.

(** *** Class weights *)

(** [dict(pairs)]: later pairs overwrite earlier ones. *)
Definition dict (pairs : list (string * Q)) : gmap string Q :=
  foldl (fun m kv => <[kv.1 := kv.2]> m) ∅ pairs.

(** Determines class weights. *)
Definition class_weights : gmap string Q :=
  dict (map (fun i => (str i, (1 / inject_Z (2 ^ Z.of_nat (7 - i)))%Q))
            (seq 0 7)).

(** *** The calls into the framework *)

Inductive metric :=
| ScalarMetric (f : tensor3 -> tensor3 -> R)
| NamedMetric (f : tensor3 -> tensor3 -> gmap string Q).

(** The arguments of [model.compile]. *)
Record compile_call := CompileCall {
  optimizer : string;
  loss : tensor3 -> tensor3 -> R;
  metrics : list metric;
  class_weights_arg : gmap string Q
}.

Definition compile : compile_call :=
  {| optimizer := "adam";
     loss := pearson_loss;
     metrics := ScalarMetric pearson_corr
                :: map (fun i => NamedMetric (bin_percent i)) (seq 0 7);
     class_weights_arg := class_weights |}.

(** *** Batching the training set *)

Section Grouper.

(** A training example is a tuple (dataset id, calcium reading, spike
    count). *)
Context {Id Ca Sp : Type}.

(** Modelled from the spec: [utils.generate_training_set] yields (dataset
    id, calcium reading, spike count) tuples indefinitely.  Its iterator is a
    parameter: a state and a [next] that always yields a tuple. *)
Context {Gen : Type}.
Variable next : Gen -> (Id * Ca * Sp) * Gen.

(** The arrays that [np.asarray] builds from the columns of a batch. *)
Inductive array :=
| Ids (a : list Id)
| Calcium (a : list Ca)
| Spikes (a : list Sp).

Definition array_len (a : array) : nat :=
  match a with
  | Ids a => length a
  | Calcium a => length a
  | Spikes a => length a
  end.

(** [(iterable.next() for _ in xrange(n))], consumed front to back. *)
Fixpoint draw (n : nat) (iterable : Gen) : list (Id * Ca * Sp) * Gen :=
  match n with
  | 0 => ([], iterable)
  | S n' =>
      let '(x, iterable) := next iterable in
      let '(xs, iterable) := draw n' iterable in
      (x :: xs, iterable)
  end.

(** [zip] over the unpacked three-element tuples: the three columns, or
    nothing when there is no tuple. *)
Definition zip_star (tuples : list (Id * Ca * Sp)) : list array :=
  match tuples with
  | [] => []
  | _ => [Ids (map (fun t => t.1.1) tuples);
          Calcium (map (fun t => t.1.2) tuples);
          Spikes (map snd tuples)]
  end.

(** One round of the [while True] loop of [_grouper]: the batch it yields
    ([None] if an index into [batched] fails) and the iterator after it. *)
Definition grouper_next (iterable : Gen)
  : option (list array * list array) * Gen :=
  let '(tuples, iterable) := draw batch_size iterable in
  let batched := zip_star tuples in
  (match mapM (fun i => batched !! i) (seq 0 2), batched !! 2 with
   | Some xs, Some y => Some (xs, [y])
   | _, _ => None
   end, iterable).

(** The first [k] batches that [_grouper] yields. *)
Fixpoint grouper_take (k : nat) (iterable : Gen)
  : list (option (list array * list array)) * Gen :=
  match k with
  | 0 => ([], iterable)
  | S k' =>
      let '(b, iterable) := grouper_next iterable in
      let '(bs, iterable) := grouper_take k' iterable in
      (b :: bs, iterable)
  end.

(** The batch that holds the given tuples: the input list of the two arrays
    of dataset ids and calcium readings, and the target list of the one
    array of spike counts. *)
Definition batch_of (tuples : list (Id * Ca * Sp))
  : list array * list array :=
  ([Ids (map (fun t => t.1.1) tuples); Calcium (map (fun t => t.1.2) tuples)],
   [Spikes (map snd tuples)]).

(** The [j]-th run of [batch_size] consecutive tuples. *)
Definition chunk (j : nat) (tuples : list (Id * Ca * Sp))
  : list (Id * Ca * Sp) :=
  take batch_size (drop (j * batch_size) tuples).

(** *** Fitting *)

(** The arguments of [model.fit_generator]; the generator is [_grouper()],
    whose state is the iterator it wraps. *)
Record fit_call := FitCall {
  generator : Gen -> option (list array * list array) * Gen;
  samples_per_epoch : nat;
  fit_nb_epoch : nat
}.

Definition fit_generator_call : fit_call :=
  {| generator := grouper_next;
     samples_per_epoch := batches_per_epoch * batch_size;
     fit_nb_epoch := nb_epoch |}.

(** Weights of the model and the framework's update on one batch. *)
Context {Weights : Type}.
Variable train_on_batch : Weights -> list array * list array -> Weights.

Record fit_state := FitState {
  weights : Weights;
  iterator : Gen;
  batches_seen : nat;
  epochs_done : nat
}.

(** Modelled from the spec: the framework's batch-fit loop, which is not
    code of this repository.  Within an epoch it pulls batches from the
    generator and trains on each until it has seen [samples_per_epoch]
    samples, a batch counting for the length of its first input array.
    [fuel] bounds the number of batches of the epoch; [None] stands for a
    loop that does not end or a generator that fails. *)
Fixpoint fit_epoch (call : fit_call) (fuel samples_seen : nat)
    (st : fit_state) : option fit_state :=
  if samples_per_epoch call <=? samples_seen then Some st
  else
    match fuel with
    | 0 => None
    | S fuel' =>
        match generator call (iterator st) with
        | (Some (x, y), it') =>
            fit_epoch call fuel'
              (samples_seen + match x with a :: _ => array_len a | [] => 0 end)
              {| weights := train_on_batch (weights st) (x, y);
                 iterator := it';
                 batches_seen := S (batches_seen st);
                 epochs_done := epochs_done st |}
        | (None, _) => None
        end
    end.

(** Modelled from the spec: the framework runs the epochs one after the
    other, a fixed number of them, and returns. *)
Fixpoint fit_epochs (call : fit_call) (fuel epochs : nat) (st : fit_state)
  : option fit_state :=
  match epochs with
  | 0 => Some st
  | S epochs' =>
      match fit_epoch call fuel 0 st with
      | Some st' =>
          fit_epochs call fuel epochs'
            {| weights := weights st';
               iterator := iterator st';
               batches_seen := batches_seen st';
               epochs_done := S (epochs_done st') |}
      | None => None
      end
  end.

Definition fit_generator (call : fit_call) (fuel : nat) (w : Weights)
    (it : Gen) : option fit_state :=
  fit_epochs call fuel (fit_nb_epoch call)
    {| weights := w; iterator := it; batches_seen := 0; epochs_done := 0 |}.

End Grouper.

End Driver.

Import Driver.

(** ** The statistic the metric and the loss are named after *)

Module Statistic.

(** A sequence minus its own mean. *)
Definition centered (x : list Q) : list Q :=
  map (fun v => (v - mean x)%Q) x.

(** Pearson correlation of two sequences, each centered by its own mean:
    the sum of the cross products over the square root of the product of
    the sums of squares, with the script's [1e-12] added to the root. *)
Definition pearson (x y : list Q) : R :=
  let xc := centered x in
  let yc := centered y in
  (Q2R (Qsum (zip_with Qmult xc yc))
   / (sqrt (Q2R (Qsum (map (fun v => v * v) xc)
                 * Qsum (map (fun v => v * v) yc))%Q) + epsilon))%R.

(** The metric as the spec words it: the mean over the samples of the
    Pearson correlation between the true and the predicted label sequence
    of the sample. *)
Definition pearson_corr_spec (y_true y_pred : tensor3) : R :=
  Rmean (zip_with pearson (K_cast (K_argmax y_true))
                          (K_cast (K_argmax y_pred))).

(** The loss as the spec words it: the negated Pearson correlation between
    the true and the predicted sequence of each sample (all its entries),
    each centered by its own mean. *)
Definition pearson_loss_spec (y_true y_pred : tensor3) : R :=
  (- Rmean (zip_with pearson (map (fun s => concat s) y_true)
                             (map (fun s => concat s) y_pred)))%R.

(** One-hot row of seven classes, for test data. *)
Definition one_hot (k : nat) : list Q :=
  map (fun j => if Nat.eqb j k then 1%Q else 0%Q) (seq 0 7).

(** Two samples of two timesteps: the true labels are 0, 1 and 5, 6; the
    predicted labels are 1, 0 and 6, 5, so that in each sample the
    prediction falls where the truth rises. *)
Definition rising_truth : tensor3 :=
  [[one_hot 0; one_hot 1]; [one_hot 5; one_hot 6]].

Definition falling_prediction : tensor3 :=
  [[one_hot 1; one_hot 0]; [one_hot 6; one_hot 5]].

(** One sample of two timesteps: true labels 5, 6, predicted labels 6, 5. *)
Definition truth_5_6 : tensor3 := [[one_hot 5; one_hot 6]].

Definition prediction_6_5 : tensor3 := [[one_hot 6; one_hot 5]].

End Statistic.

Import Statistic.

(** ** The shapes a built model is expected to have *)

Module Summary.

(** The shapes of the 16 tensors that an inception cell creates on an input of
    [channels] channels, in creation order. *)
Definition cell_summary (steps channels : nat) : list (list nat) :=
  map (fun c => [steps; c])
      [64; 64; 48; 48; 64; 64; 64; 64; 96; 96; 96; 96; channels; 32; 32; 256].

(** The shapes of the tensors of the model, in creation order: the two
    inputs, the repeated, flattened and embedded dataset identifier, the
    normalised calcium, their merge, three cells, the recurrent layer and the
    output. *)
Definition model_summary (num_timesteps : nat) : list (list nat) :=
  [[1]; [num_timesteps; 1]; [num_timesteps; 1]; [num_timesteps];
   [num_timesteps; 1]; [num_timesteps; 1]; [num_timesteps; 2]]
  ++ cell_summary num_timesteps 2
  ++ cell_summary num_timesteps 256
  ++ cell_summary num_timesteps 256
  ++ [[num_timesteps; 128]; [num_timesteps; 7]].

End Summary.

Import Summary.

(** ** Order and use of the tensors of a graph *)

Module Dag.

(** Every layer is applied to tensors created before it. *)
Definition inputs_precede (g : list node) : Prop :=
  Forall (fun p => Forall (fun a => a < p.1) (args p.2))
         (imap (fun t n => (t, n)) g).

(** Tensor [t] is an argument of a layer created after it. *)
Definition feeds_later (g : list node) (t : nat) : Prop :=
  Exists (fun n => t ∈ args n) (drop (S t) g).

End Dag.

Import Dag.

(** * Properties *)

(** ** Topology of the built model *)

Lemma is_inception_cell_sound (g : graph) (out x : tensor) :
  is_inception_cell g out = Some x ->
  cell_at g out = Some (x, ("concat", (-1)%Z), inception_branches).
Proof.
  unfold is_inception_cell.
  destruct (cell_at g out) as [[[x' [mode axis]] chains]|]; [|discriminate].
  destruct (decide _) as [(-> & -> & ->)|]; [|discriminate].
  intros [= ->]. reflexivity.
Qed.

(** C1: for every number of timesteps the built model has exactly the two
    inputs named dataset and calcium and exactly one output; its wiring does
    not depend on the number of timesteps; the output is a time-distributed
    dense softmax layer of 7 units on top of the single bidirectional LSTM,
    which sits on exactly 3 stacked inception cells; each cell concatenates,
    on the last axis, four parallel branches from the same tensor with
    window lengths 1, then 1 and 5, then 1, 3 and 3, and a pooled branch (pool
    of 3, then 1).  The counts are of graph nodes: the LSTM and the Dense
    layer occur only inside their wrappers, the fourth merge joins the two
    inputs, and every convolution and pooling layer belongs to a cell. *)
Theorem build_model_topology (num_timesteps : nat) :
  let m := build_model num_timesteps in
  let g := layers m in
  map (input_name g) (input m) = [Some "dataset"; Some "calcium"] /\
  count_kind "Input" g = 2 /\
  length (output m) = 1 /\
  wiring g = wiring (layers (build_model 0)) /\
  (exists out rec top base,
      output m = [out] /\
      g !! out
        = Some (Node (TimeDistributed (Dense 7 softmax (Some "l2"))) [rec]) /\
      g !! rec = Some (Node (Bidirectional (LSTM 64 true)) [top]) /\
      peel_cells (length g) g top = (3, base) /\
      is_inception_cell g base = None /\
      forall out', is_inception_cell g out' <> None ->
        exists x, cell_at g out'
                  = Some (x, ("concat", (-1)%Z), inception_branches)) /\
  count_kind "Bidirectional" g = 1 /\
  count_kind "LSTM" g = 0 /\
  count_kind "TimeDistributed" g = 1 /\
  count_kind "Dense" g = 0 /\
  count_kind "Merge" g = 3 + 1 /\
  count_kind "Convolution1D" g = 3 * 7 /\
  count_kind "AveragePooling1D" g = 3 /\
  map window_lengths inception_branches = [[1]; [1; 5]; [1; 3; 3]; [3; 1]].
Proof.
  intros m g.
  split; [vm_compute; reflexivity|]. split; [vm_compute; reflexivity|].
  split; [vm_compute; reflexivity|]. split; [vm_compute; reflexivity|].
  split.
  - exists 56, 55, 54, 6.
    split; [vm_compute; reflexivity|]. split; [vm_compute; reflexivity|].
    split; [vm_compute; reflexivity|]. split; [vm_compute; reflexivity|].
    split; [vm_compute; reflexivity|].
    clearbody g. intros out' Hcell.
    destruct (is_inception_cell g out') as [x|] eqn:E; [|congruence].
    exists x. apply is_inception_cell_sound, E.
  - repeat split; vm_compute; reflexivity.
Qed.

(** ** Shapes through the builder *)

Lemma infer_snoc (g : graph) (n : node) :
  infer (g ++ [n]) = infer_node (infer g) n.
Proof. unfold infer. rewrite fold_left_app. reflexivity. Qed.

Lemma infer_length (g : graph) : length (infer g) = length g.
Proof.
  induction g as [|n g IH] using rev_ind; [reflexivity|].
  rewrite infer_snoc. unfold infer_node.
  rewrite !length_app, IH. reflexivity.
Qed.

Lemma extends_snoc (g : graph) (n : node) : extends g (g ++ [n]).
Proof.
  intros t s. unfold shape_of. rewrite infer_snoc.
  unfold infer_node.
  destruct (infer g !! t) as [o|] eqn:E; [|intros [=]].
  rewrite lookup_app_l by (eapply lookup_lt_Some; exact E).
  rewrite E. trivial.
Qed.

Lemma extends_trans (g1 g2 g3 : graph) :
  extends g1 g2 -> extends g2 g3 -> extends g1 g3.
Proof. unfold extends. auto. Qed.

Lemma arg_shapes_cons (g : graph) (x : tensor) (xs : list tensor)
    (s : shape) (ss : list shape) :
  shape_of g x = Some s ->
  arg_shapes (infer g) xs = Some ss ->
  arg_shapes (infer g) (x :: xs) = Some (s :: ss).
Proof.
  unfold shape_of. intros Hx Hxs. cbn [arg_shapes]. rewrite Hxs.
  destruct (infer g !! x) as [[s'|]|]; try discriminate.
  injection Hx as ->. reflexivity.
Qed.

(** A layer call yields a tensor of the layer's output shape and keeps what
    was known. *)
Lemma call_shape (g : graph) (l : layer) (xs : list tensor)
    (ins : list shape) (s : shape) :
  arg_shapes (infer g) xs = Some ins ->
  output_shape l ins = Some s ->
  shape_of (call l xs g).2 (call l xs g).1 = Some s /\
  extends g (call l xs g).2.
Proof.
  intros Hargs Hout. unfold call. cbn [fst snd]. split.
  - unfold shape_of. rewrite infer_snoc. unfold infer_node.
    cbn [args op]. rewrite Hargs, Hout.
    rewrite lookup_app_r by (rewrite infer_length; lia).
    rewrite infer_length, Nat.sub_diag. reflexivity.
  - apply extends_snoc.
Qed.

Lemma conv_output_length_same (steps window : nat) :
  conv_output_length steps window same 1 = steps.
Proof.
  unfold conv_output_length.
  replace (steps + 1 - 1) with steps by lia. apply Nat.div_1_r.
Qed.

(** Concatenating on the last axis tensors that agree on the number of
    steps adds up their channels. *)
Lemma concat_shapes_channels (steps c : nat) (cs : list nat) :
  concat_shapes (-1) (map (fun c => [steps; c]) (c :: cs))
  = Some [steps; list_sum (c :: cs)].
Proof.
  cbn [map concat_shapes length].
  change (axis_index (-1) 2) with (Some 1). cbv beta iota.
  assert (Hall : forallb (fun s' => bool_decide (delete 1 s' = delete 1 [steps; c]))
                   (map (fun c => [steps; c]) cs) = true).
  { induction cs as [|c' cs IH]; [reflexivity|].
    cbn [map forallb]. rewrite IH, andb_true_r.
    apply bool_decide_eq_true_2. reflexivity. }
  rewrite Hall. clear Hall. f_equal. cbn. f_equal. f_equal. f_equal.
  induction cs as [|c' cs IH]; [reflexivity|].
  cbn [map list_sum foldr nth]. rewrite IH. reflexivity.
Qed.

(** Moves every known shape to the extended graph [He] speaks of. *)
Ltac forward He :=
  repeat match goal with
         | H : shape_of ?g _ = Some _ |- _ =>
             lazymatch type of He with
             | extends g _ => apply He in H
             end
         end.

Lemma conv_bn_shape (g : graph) (x : tensor) (nb_filter filter_length : nat)
    (steps channels : nat) :
  shape_of g x = Some [steps; channels] ->
  shape_of (conv_bn x nb_filter filter_length g).2
           (conv_bn x nb_filter filter_length g).1
    = Some [steps; nb_filter] /\
  extends g (conv_bn x nb_filter filter_length g).2.
Proof.
  intros Hx. unfold conv_bn, bind, ret.
  destruct (call_shape g (Convolution1D nb_filter filter_length relu same)
              [x] [[steps; channels]] [steps; nb_filter]) as [Hc Ec].
  { apply arg_shapes_cons; [exact Hx | reflexivity]. }
  { cbn [output_shape]. rewrite conv_output_length_same. reflexivity. }
  destruct (call (Convolution1D nb_filter filter_length relu same) [x] g)
    as [c g1]. cbn [fst snd] in Hc, Ec.
  destruct (call_shape g1 (BatchNormalization 0 1) [c]
              [[steps; nb_filter]] [steps; nb_filter]) as [Hb Eb].
  { apply arg_shapes_cons; [exact Hc | reflexivity]. }
  { reflexivity. }
  destruct (call (BatchNormalization 0 1) [c] g1) as [b g2].
  cbn [fst snd] in *. split; [exact Hb|].
  eapply extends_trans; eassumption.
Qed.

(** Runs the next [conv_bn] of the goal on the current graph, records the
    shape of its result and carries the known shapes over. *)
Ltac run_conv_bn Hx :=
  match goal with
  | |- context [conv_bn ?x ?nf ?fl ?g] =>
      let Hs := fresh "Hs" in
      let He := fresh "He" in
      let b := fresh "b" in
      let g' := fresh "g" in
      destruct (conv_bn_shape g x nf fl _ _ Hx) as [Hs He];
      destruct (conv_bn x nf fl g) as [b g'];
      cbn [fst snd] in Hs, He |- *
  end.

Ltac run_call ins s :=
  match goal with
  | |- context [call ?l ?xs ?g] =>
      let Hs := fresh "Hs" in
      let He := fresh "He" in
      let y := fresh "y" in
      let g' := fresh "g" in
      destruct (call_shape g l xs ins s) as [Hs He];
      [ repeat (apply arg_shapes_cons; [eassumption|]); reflexivity
      | try reflexivity
      | destruct (call l xs g) as [y g'];
        cbn [fst snd] in Hs, He |- * ]
  end.

(** An inception cell keeps the number of steps and produces
    64 + 64 + 96 + 32 = 256 channels. *)
Lemma inception_cell_shape (g : graph) (x : tensor) (steps channels : nat) :
  shape_of g x = Some [steps; channels] ->
  shape_of (inception_cell x g).2 (inception_cell x g).1
    = Some [steps; 256] /\
  extends g (inception_cell x g).2.
Proof.
  intros Hx. unfold inception_cell, bind, ret.
  assert (E0 : extends g g) by (intros ? ? H; exact H).
  run_conv_bn Hx. rename Hs into H1x1.
  pose proof (extends_trans _ _ _ E0 He) as E1. forward He.
  run_conv_bn Hx. pose proof (extends_trans _ _ _ E1 He0) as E2. forward He0.
  run_conv_bn Hs. rename Hs0 into H5x5.
  pose proof (extends_trans _ _ _ E2 He1) as E3. forward He1.
  run_conv_bn Hx. pose proof (extends_trans _ _ _ E3 He2) as E4. forward He2.
  run_conv_bn Hs0. pose proof (extends_trans _ _ _ E4 He3) as E5. forward He3.
  run_conv_bn Hs1. rename Hs2 into H3x3.
  pose proof (extends_trans _ _ _ E5 He4) as E6. forward He4.
  run_call [[steps; channels]] [steps; channels].
  { cbn [output_shape]. rewrite conv_output_length_same. reflexivity. }
  pose proof (extends_trans _ _ _ E6 He5) as E7. forward He5.
  run_conv_bn Hs2. rename Hs3 into Hpool.
  pose proof (extends_trans _ _ _ E7 He6) as E8. forward He6.
  run_call [[steps; 64]; [steps; 64]; [steps; 96]; [steps; 32]] [steps; 256].
  { cbn [output_shape]. rewrite decide_True by reflexivity.
    apply (concat_shapes_channels steps 64 [64; 96; 32]). }
  split; [exact Hs3|]. eapply extends_trans; eassumption.
Qed.

(** Stacking cells keeps the shape of one cell. *)
Lemma inception_stack_shape (n : nat) (g : graph) (x : tensor)
    (steps channels : nat) :
  shape_of g x = Some [steps; channels] ->
  shape_of (for_range (S n) inception_cell x g).2
           (for_range (S n) inception_cell x g).1
    = Some [steps; 256] /\
  extends g (for_range (S n) inception_cell x g).2.
Proof.
  revert g x channels. induction n as [|n IH]; intros g x channels Hx.
  - cbn [for_range]. unfold bind, ret.
    destruct (inception_cell_shape g x steps channels Hx) as [Hs He].
    destruct (inception_cell x g) as [y g']. exact (conj Hs He).
  - change (for_range (S (S n)) inception_cell x)
      with (bind (inception_cell x) (for_range (S n) inception_cell)).
    unfold bind.
    destruct (inception_cell_shape g x steps channels Hx) as [Hs He].
    destruct (inception_cell x g) as [y g']. cbn [fst snd] in Hs, He.
    destruct (IH g' y 256 Hs) as [Hs' He'].
    split; [exact Hs'|]. eapply extends_trans; eassumption.
Qed.

(** The graph of the model: its single output has [num_timesteps] steps of
    7 classes. *)
Lemma build_model_graph_shape (num_timesteps : nat) :
  let r := build_model_graph num_timesteps [] in
  exists out, r.1.2 = [out] /\ shape_of r.2 out = Some [num_timesteps; 7].
Proof.
  unfold build_model_graph, bind, ret.
  run_call (@nil (list nat)) [1].
  run_call (@nil (list nat)) [num_timesteps; 1]. forward He0.
  run_call [[1]] [num_timesteps; 1]. forward He1.
  run_call [[num_timesteps; 1]] [num_timesteps].
  { cbn. f_equal. f_equal. lia. }
  forward He2.
  run_call [[num_timesteps]] [num_timesteps; 1]. forward He3.
  run_call [[num_timesteps; 1]] [num_timesteps; 1]. forward He4.
  run_call [[num_timesteps; 1]; [num_timesteps; 1]] [num_timesteps; 2].
  { cbn [output_shape]. rewrite decide_True by reflexivity.
    apply (concat_shapes_channels num_timesteps 1 [1]). }
  destruct (inception_stack_shape 2 g5 y5 num_timesteps 2 Hs5) as [Hh Eh].
  destruct (for_range 3 inception_cell y5 g5) as [h g6].
  cbn [fst snd] in Hh, Eh |- *.
  run_call [[num_timesteps; 256]] [num_timesteps; 128]. forward He6.
  run_call [[num_timesteps; 128]] [num_timesteps; 7].
  cbn [fst snd]. exists y7. split; [reflexivity | exact Hs7].
Qed.

Lemma build_model_fields (num_timesteps : nat) :
  output (build_model num_timesteps)
    = (build_model_graph num_timesteps []).1.2 /\
  layers (build_model num_timesteps)
    = (build_model_graph num_timesteps []).2.
Proof.
  unfold build_model.
  destruct (build_model_graph num_timesteps []) as [[ins outs] g].
  split; reflexivity.
Qed.

(** ** The softmax head *)

Lemma Rsum_nil : Rsum [] = 0%R.
Proof. reflexivity. Qed.

Lemma Rsum_cons (v : R) (l : list R) : Rsum (v :: l) = (v + Rsum l)%R.
Proof. reflexivity. Qed.

Lemma Rsum_scale (s : R) (e : list R) :
  Rsum (map (fun v => (v / s)%R) e) = (Rsum e / s)%R.
Proof.
  induction e as [|v e IH]; cbn [map].
  - rewrite Rsum_nil. unfold Rdiv. ring.
  - rewrite !Rsum_cons, IH. unfold Rdiv. ring.
Qed.

Lemma Rsum_exp_nonneg (z : list R) : (0 <= Rsum (map exp z))%R.
Proof.
  induction z as [|v z IH]; cbn [map].
  - rewrite Rsum_nil. lra.
  - rewrite Rsum_cons. pose proof (exp_pos v). lra.
Qed.

Lemma Rsum_exp_pos (z : list R) : z <> [] -> (0 < Rsum (map exp z))%R.
Proof.
  destruct z as [|v z]; [congruence|]. intros _.
  cbn [map]. rewrite Rsum_cons.
  pose proof (exp_pos v). pose proof (Rsum_exp_nonneg z). lra.
Qed.

(** Softmax of a non-empty vector is a distribution over its entries. *)
Lemma softmax_distribution (z : list R) :
  z <> [] ->
  length (activate softmax z) = length z /\
  Forall (Rle 0) (activate softmax z) /\
  Rsum (activate softmax z) = 1%R.
Proof.
  intros Hz. pose proof (Rsum_exp_pos z Hz) as Hpos.
  cbn [activate]. split; [|split].
  - rewrite !length_map. reflexivity.
  - apply Forall_forall. intros v Hv.
    apply list_elem_of_In, in_map_iff in Hv as (e & <- & He).
    apply in_map_iff in He as (x & <- & _).
    pose proof (exp_pos x). apply Rlt_le, Rdiv_lt_0_compat; assumption.
  - rewrite Rsum_scale. field. lra.
Qed.

Lemma mapM_total {A B} (f : A -> option B) (f' : A -> B) (l : list A) :
  (forall x, f x = Some (f' x)) -> mapM f l = Some (map f' l).
Proof.
  intros Hf. induction l as [|x l IH]; [reflexivity|].
  cbn [mapM map]. rewrite Hf, IH. reflexivity.
Qed.

Lemma predict_build_model (num_timesteps : nat) (p : dense_weights)
    (hidden : list (list (list R))) :
  predict (build_model num_timesteps) p hidden
  = Some (map (map (dense 7 softmax p)) hidden).
Proof.
  assert (Hhead : layers (build_model num_timesteps) !! 56
                  = Some (Node (TimeDistributed
                                  (Dense 7 softmax (Some "l2"))) [55]))
    by (vm_compute; reflexivity).
  assert (Hout : output (build_model num_timesteps) = [56])
    by (vm_compute; reflexivity).
  unfold predict. rewrite Hout, Hhead. cbn [op].
  apply (mapM_total _ (map (dense 7 softmax p))). reflexivity.
Qed.

(** C2: for every batch the single output of the model has shape (batch,
    timesteps, 7), the prediction keeps the samples and the timesteps of the
    features it is computed from, and at every timestep its 7 values are
    nonnegative and sum to 1. *)
Theorem model_output_distribution (num_timesteps batch : nat)
    (p : dense_weights) (hidden : list (list (list R))) :
  let m := build_model num_timesteps in
  (exists out,
      output m = [out] /\
      batch_shape batch (shape_of (layers m) out)
        = Some [batch; num_timesteps; 7]) /\
  (exists y,
      predict m p hidden = Some y /\
      Forall2 (fun ys hs => length ys = length hs) y hidden /\
      Forall (Forall (fun row => length row = 7 /\
                                 Forall (Rle 0) row /\
                                 Rsum row = 1%R)) y).
Proof.
  intros m. split.
  - destruct (build_model_fields num_timesteps) as [Hout Hlay].
    destruct (build_model_graph_shape num_timesteps) as (out & Ho & Hs).
    exists out. subst m. rewrite Hout, Hlay. split; [exact Ho|].
    cbv zeta in Hs. rewrite Hs. reflexivity.
  - exists (map (map (dense 7 softmax p)) hidden).
    split; [|split].
    + apply predict_build_model.
    + induction hidden as [|h hidden IH]; constructor;
        [apply length_map | exact IH].
    + apply Forall_forall. intros ys Hys.
      apply list_elem_of_In, in_map_iff in Hys as (h & <- & _).
      apply Forall_forall. intros row Hrow.
      apply list_elem_of_In, in_map_iff in Hrow as (x & <- & _).
      unfold dense.
      set (z := map (fun j => (dot (kernel p j) x + bias p j)%R) (seq 0 7)).
      assert (Hz : z <> []) by (subst z; discriminate).
      destruct (softmax_distribution z Hz) as (Hlen & Hpos & Hsum).
      split; [|split; assumption].
      rewrite Hlen. subst z. rewrite length_map, length_seq. reflexivity.
Qed.

(** ** The embedded dataset identifier *)

Lemma embedding_lookup_is_Some (table : list (list R)) (i : Z) :
  is_Some (embedding_lookup table i)
  <-> (0 <= i < Z.of_nat (length table))%Z.
Proof.
  unfold embedding_lookup. destruct (Z.ltb_spec i 0) as [Hneg|Hpos].
  - split; [intros [? [=]] | lia].
  - rewrite lookup_lt_is_Some. lia.
Qed.

Lemma concat_replicate_singleton {A} (n : nat) (x : A) :
  concat (replicate n [x]) = replicate n x.
Proof.
  induction n as [|n IH]; [reflexivity|].
  cbn [replicate concat app]. rewrite IH. reflexivity.
Qed.

(** The identifiers that reach the embedding layer of the model: the
    dataset identifier of the sample, once per timestep. *)
Lemma build_model_embedding_input (num_timesteps : nat) (dataset : Z) :
  let g := layers (build_model num_timesteps) in
  embedding_of g = Some (Embedding 10 1 "orthogonal", 3) /\
  int_value (length g) g 3 dataset = Some (replicate num_timesteps dataset).
Proof.
  split; [vm_compute; reflexivity|].
  rewrite <- concat_replicate_singleton. vm_compute. reflexivity.
Qed.



(** ** Class weights *)



(** ** Bin frequencies *)

Lemma argmax_from_lt (row : list Q) (best : Q) (best_i i : nat) :
  best_i < i -> argmax_from best best_i i row < i + length row.
Proof.
  revert best best_i i. induction row as [|x row IH]; intros best best_i i Hi.
  - cbn [argmax_from length]. lia.
  - cbn [argmax_from length]. destruct (Qle_bool x best).
    + specialize (IH best best_i (S i)). lia.
    + specialize (IH x i (S i)). lia.
Qed.

(** The argmax of a non-empty row is one of its positions. *)
Lemma argmax_lt (row : list Q) : row <> [] -> argmax row < length row.
Proof.
  destruct row as [|x row]; [congruence|]. intros _.
  cbn [argmax length]. pose proof (argmax_from_lt row x 0 1). lia.
Qed.

Lemma concat_map_map {A B} (f : A -> B) (l : list (list A)) :
  concat (map (map f) l) = map f (concat l).
Proof.
  induction l as [|x l IH]; [reflexivity|].
  cbn [map concat]. rewrite IH, map_app. reflexivity.
Qed.

(** The metric of bin [i] on the flattened labels. *)
Lemma K_mean_equal (labels : list (list nat)) (i : nat) :
  K_mean (K_equal labels i)
  = (Qsum (map (indicator i) (concat labels))
     / inject_Z (Z.of_nat (length (concat labels))))%Q.
Proof.
  unfold K_mean, K_equal, mean.
  change (fun k : nat => if Nat.eqb k i then 1%Q else 0%Q) with (indicator i).
  rewrite concat_map_map, length_map. reflexivity.
Qed.

Lemma Qsum_indicator_count (i : nat) (flat : list nat) :
  (Qsum (map (indicator i) flat)
   == inject_Z (Z.of_nat (length (filter (fun k => k = i) flat))))%Q.
Proof.
  induction flat as [|k flat IH]; [reflexivity|].
  cbn [map Qsum fold_right]. fold (Qsum (map (indicator i) flat)).
  rewrite IH. rewrite filter_cons. unfold indicator.
  destruct (Nat.eqb_spec k i) as [->|Hne].
  - rewrite decide_True by reflexivity. cbn [length].
    rewrite Nat2Z.inj_succ, <- Z.add_1_l, inject_Z_plus. reflexivity.
  - rewrite decide_False by exact Hne. ring.
Qed.

Lemma Qsum_map_plus {A} (f g : A -> Q) (l : list A) :
  (Qsum (map (fun i => f i + g i) l) == Qsum (map f l) + Qsum (map g l))%Q.
Proof.
  induction l as [|x l IH]; [reflexivity|].
  cbn [map Qsum fold_right].
  fold (Qsum (map (fun i => (f i + g i)%Q) l)).
  fold (Qsum (map f l)). fold (Qsum (map g l)). rewrite IH. ring.
Qed.

Lemma Qsum_map_div {A} (f : A -> Q) (c : Q) (l : list A) :
  (Qsum (map (fun i => f i / c) l) == Qsum (map f l) / c)%Q.
Proof.
  induction l as [|x l IH]; [unfold Qdiv; cbn; ring|].
  cbn [map Qsum fold_right].
  fold (Qsum (map (fun i => (f i / c)%Q) l)). fold (Qsum (map f l)).
  rewrite IH. unfold Qdiv. ring.
Qed.

(** A label below 7 falls in exactly one of the 7 bins. *)
Lemma one_bin (k : nat) :
  k < 7 -> (Qsum (map (fun i => indicator i k) (seq 0 7)) == 1)%Q.
Proof.
  intros Hk. do 7 (destruct k as [|k]; [reflexivity|]). lia.
Qed.

Lemma bins_cover (flat : list nat) :
  Forall (fun k => k < 7) flat ->
  (Qsum (map (fun i => Qsum (map (indicator i) flat)) (seq 0 7))
   == inject_Z (Z.of_nat (length flat)))%Q.
Proof.
  induction 1 as [|k flat Hk _ IH]; [reflexivity|].
  cbn [map length].
  transitivity (Qsum (map (fun i => indicator i k) (seq 0 7))
                + Qsum (map (fun i => Qsum (map (indicator i) flat))
                            (seq 0 7)))%Q.
  - apply (Qsum_map_plus (fun i => indicator i k)
                         (fun i => Qsum (map (indicator i) flat))).
  - rewrite IH, (one_bin k Hk).
    rewrite Nat2Z.inj_succ, <- Z.add_1_l, inject_Z_plus. reflexivity.
Qed.

Lemma count_labels (rows : list (list Q)) (i : nat) :
  length (filter (fun k => k = i) (map argmax rows))
  = length (filter (fun row => argmax row = i) rows).
Proof.
  induction rows as [|row rows IH]; [reflexivity|].
  cbn [map]. rewrite !filter_cons.
  destruct (decide (argmax row = i)); cbn [length]; rewrite IH; reflexivity.
Qed.



(** ** Batching and fitting *)

Section Training.

Context {Id Ca Sp Gen Weights : Type}.
Variable next : Gen -> (Id * Ca * Sp) * Gen.
Variable train_on_batch :
  Weights -> list (@array Id Ca Sp) * list (@array Id Ca Sp) -> Weights.

Lemma draw_length (n : nat) (it : Gen) : length (draw next n it).1 = n.
Proof.
  revert it. induction n as [|n IH]; intros it; [reflexivity|].
  cbn [draw]. destruct (next it) as [x it1].
  specialize (IH it1). destruct (draw next n it1) as [xs it2].
  cbn [fst length] in *. rewrite IH. reflexivity.
Qed.

Lemma draw_add (n m : nat) (it : Gen) :
  draw next (n + m) it
  = ((draw next n it).1 ++ (draw next m (draw next n it).2).1,
     (draw next m (draw next n it).2).2).
Proof.
  revert it. induction n as [|n IH]; intros it.
  - cbn [Nat.add draw fst snd app]. destruct (draw next m it); reflexivity.
  - cbn [Nat.add draw]. destruct (next it) as [x it1].
    rewrite (IH it1). destruct (draw next n it1) as [xs it2].
    cbn [fst snd]. reflexivity.
Qed.

(** One round of [_grouper] yields the batch of the next [batch_size]
    tuples and leaves the iterator after them. *)
Lemma grouper_next_batch (it : Gen) :
  grouper_next next it
  = (Some (batch_of (draw next batch_size it).1),
     (draw next batch_size it).2).
Proof.
  unfold grouper_next. pose proof (draw_length batch_size it) as Hlen.
  destruct (draw next batch_size it) as [ts it1]. cbn [fst snd] in *.
  destruct ts as [|t ts]; [discriminate Hlen|]. reflexivity.
Qed.

Lemma chunk_0 (xs ys : list (Id * Ca * Sp)) :
  length xs = batch_size -> chunk 0 (xs ++ ys) = xs.
Proof.
  intros Hlen. unfold chunk. rewrite Nat.mul_0_l. cbn [drop].
  apply take_app_length'. symmetry. exact Hlen.
Qed.

Lemma chunk_S (j : nat) (xs ys : list (Id * Ca * Sp)) :
  length xs = batch_size -> chunk (S j) (xs ++ ys) = chunk j ys.
Proof.
  intros Hlen. unfold chunk. f_equal.
  replace (S j * batch_size) with (length xs + j * batch_size) by lia.
  apply drop_app_add.
Qed.

Lemma grouper_take_batches (k : nat) (it : Gen) :
  grouper_take next k it
  = (map (fun j => Some (batch_of (chunk j (draw next (k * batch_size) it).1)))
         (seq 0 k),
     (draw next (k * batch_size) it).2).
Proof.
  revert it. induction k as [|k IH]; intros it; [reflexivity|].
  cbn [grouper_take]. rewrite grouper_next_batch, IH.
  change (S k * batch_size) with (batch_size + k * batch_size).
  rewrite draw_add. cbn [fst snd seq map].
  pose proof (draw_length batch_size it) as Hlen.
  rewrite (chunk_0 _ _ Hlen). f_equal. f_equal.
  rewrite <- seq_shift, map_map. apply map_ext. intros j.
  rewrite (chunk_S _ _ _ Hlen). reflexivity.
Qed.

Lemma chunks_partition (k : nat) (tuples : list (Id * Ca * Sp)) :
  length tuples = k * batch_size ->
  concat (map (fun j => chunk j tuples) (seq 0 k)) = tuples.
Proof.
  revert tuples. induction k as [|k IH]; intros tuples Hlen.
  - destruct tuples; [reflexivity | discriminate Hlen].
  - transitivity (take batch_size tuples ++ drop batch_size tuples);
      [|apply take_drop].
    cbn [seq map concat]. f_equal.
    rewrite <- seq_shift, map_map.
    rewrite <- (IH (drop batch_size tuples))
      by (rewrite length_drop; lia).
    f_equal. apply map_ext. intros j. unfold chunk.
    rewrite drop_drop. reflexivity.
Qed.


(** An epoch that still has [k] batches of [batch_size] samples to see runs
    exactly [k] rounds of the generator, given fuel for them. *)
Lemma fit_epoch_runs (k fuel seen : nat) (st : fit_state) :
  k <= fuel ->
  seen + k * batch_size
    = samples_per_epoch (fit_generator_call next) ->
  exists w,
    fit_epoch train_on_batch (fit_generator_call next) fuel seen st
    = Some {| weights := w;
              iterator := (draw next (k * batch_size) (iterator st)).2;
              batches_seen := k + batches_seen st;
              epochs_done := epochs_done st |}.
Proof.
  revert fuel seen st.
  induction k as [|k IH]; intros fuel seen st Hfuel Hseen.
  - exists (weights st). destruct fuel, st; cbn [fit_epoch];
      rewrite (proj2 (Nat.leb_le _ _)) by lia; reflexivity.
  - destruct fuel as [|fuel]; [lia|]. cbn [fit_epoch].
    rewrite (proj2 (Nat.leb_gt _ _))
      by (change batch_size with 32 in *; lia).
    cbn [fit_generator_call generator]. rewrite grouper_next_batch.
    cbn [batch_of array_len]. rewrite length_map, draw_length.
    match goal with
    | |- context [fit_epoch _ _ fuel (seen + batch_size) ?st'] =>
        destruct (IH fuel (seen + batch_size) st') as [w Hw];
        [lia | lia | exists w; rewrite Hw]
    end.
    cbn [iterator batches_seen epochs_done]. f_equal. f_equal; [|lia].
    change (S k * batch_size) with (batch_size + k * batch_size).
    rewrite draw_add. reflexivity.
Qed.

Lemma fit_epochs_run (epochs fuel : nat) (st : fit_state) :
  batches_per_epoch <= fuel ->
  exists w,
    fit_epochs train_on_batch (fit_generator_call next) fuel epochs st
    = Some {| weights := w;
              iterator :=
                (draw next (epochs * (batches_per_epoch * batch_size))
                      (iterator st)).2;
              batches_seen := epochs * batches_per_epoch + batches_seen st;
              epochs_done := epochs + epochs_done st |}.
Proof.
  intros Hfuel. revert st. induction epochs as [|epochs IH]; intros st.
  - exists (weights st). destruct st. reflexivity.
  - cbn [fit_epochs].
    destruct (fit_epoch_runs batches_per_epoch fuel 0 st Hfuel) as [w Hw];
      [reflexivity|].
    rewrite Hw. cbn [weights iterator batches_seen epochs_done].
    match goal with
    | |- context [fit_epochs _ _ fuel epochs ?st'] =>
        destruct (IH st') as [w' Hw']; exists w'; rewrite Hw'
    end.
    cbn [iterator batches_seen epochs_done]. f_equal. f_equal; [|lia..].
    change (S epochs * (batches_per_epoch * batch_size))
      with (batches_per_epoch * batch_size
            + epochs * (batches_per_epoch * batch_size)).
    rewrite draw_add. reflexivity.
Qed.


End Training.


(** ** Denominators of the metric and the loss *)

Lemma epsilon_pos : (0 < epsilon)%R.
Proof. unfold epsilon. lra. Qed.

(** The divisor of each entry of [quotient]. *)
Lemma quotient_divisors (n d : list Q) :
  quotient n d
  = zip_with Rdiv (map Q2R n)
      (map (fun d => (sqrt (Q2R d) + epsilon)%R) d).
Proof.
  revert d. induction n as [|x n IH]; intros [|y d]; try reflexivity.
  cbn [quotient zip_with map]. f_equal. apply IH.
Qed.

Lemma Qsum_nonneg (l : list Q) : Forall (Qle 0) l -> (0 <= Qsum l)%Q.
Proof.
  induction 1 as [|x l Hx _ IH]; [apply Qle_refl|].
  cbn [Qsum fold_right]. fold (Qsum l).
  change 0%Q with (0 + 0)%Q. apply Qplus_le_compat; assumption.
Qed.

Lemma square_nonneg (v : Q) : (0 <= v * v)%Q.
Proof.
  destruct v as [p q]. unfold Qle, Qmult. cbn [Qnum Qden]. nia.
Qed.

Lemma sum_squares2_nonneg (x : list (list Q)) :
  Forall (Qle 0) (sum_last2 (square2 x)).
Proof.
  unfold sum_last2, square2. rewrite map_map. apply Forall_map.
  apply Forall_forall. intros row _. apply Qsum_nonneg.
  apply Forall_map, Forall_forall. intros v _. apply square_nonneg.
Qed.

Lemma sum_squares3_nonneg (x : list (list (list Q))) :
  Forall (Qle 0) (sum_last2 (sum_last3 (square3 x))).
Proof.
  unfold sum_last3, square3. unfold sum_last2 at 1. rewrite !map_map.
  apply Forall_map, Forall_forall. intros s _.
  cbv beta. apply Qsum_nonneg, sum_squares2_nonneg.
Qed.

Lemma products_nonneg (a b : list Q) :
  Forall (Qle 0) a -> Forall (Qle 0) b ->
  Forall (Qle 0) (zip_with Qmult a b).
Proof.
  intros Ha. revert b. induction Ha as [|x a Hx _ IH]; intros b Hb.
  - constructor.
  - destruct Hb as [|y b Hy Hb]; [constructor|].
    cbn [zip_with]. constructor; [|apply IH; exact Hb].
    apply Qmult_le_0_compat; assumption.
Qed.

Lemma divisors_pos (d : list Q) :
  Forall (fun v => (0 < v)%R) (map (fun d => (sqrt (Q2R d) + epsilon)%R) d).
Proof.
  apply Forall_map, Forall_forall. intros v _. cbv beta.
  pose proof (sqrt_pos (Q2R v)). pose proof epsilon_pos. lra.
Qed.

(** C8: in [pearson_corr] and in [pearson_loss] every division has the
    divisor sqrt(d) + 1e-12, where d is a product of two sums of squares and
    so is nonnegative; the divisor is strictly positive for every pair of
    input tensors, also where a sequence is constant and d is 0. *)
Theorem pearson_divisors_positive (y_true y_pred : tensor3) :
  let divisors d := map (fun d => (sqrt (Q2R d) + epsilon)%R) d in
  let corr := pearson_corr_nd y_true y_pred in
  let loss := pearson_loss_nd y_true y_pred in
  pearson_corr y_true y_pred
    = Rmean (zip_with Rdiv (map Q2R corr.1) (divisors corr.2)) /\
  pearson_loss y_true y_pred
    = (- Rmean (zip_with Rdiv (map Q2R loss.1) (divisors loss.2)))%R /\
  Forall (Qle 0) corr.2 /\
  Forall (Qle 0) loss.2 /\
  Forall (fun v => (0 < v)%R) (divisors corr.2) /\
  Forall (fun v => (0 < v)%R) (divisors loss.2) /\
  (sqrt (Q2R 0) + epsilon = 1e-12)%R.
Proof.
  intros divisors corr loss.
  split; [|split; [|split; [|split; [|split; [|split]]]]].
  - unfold pearson_corr. fold corr. destruct corr as [n d].
    cbn [fst snd]. rewrite quotient_divisors. reflexivity.
  - unfold pearson_loss. fold loss. destruct loss as [n d].
    cbn [fst snd]. rewrite quotient_divisors. reflexivity.
  - apply products_nonneg; apply sum_squares2_nonneg.
  - apply products_nonneg; apply sum_squares3_nonneg.
  - apply divisors_pos.
  - apply divisors_pos.
  - unfold Q2R, epsilon. cbn [Qnum Qden]. rewrite Rmult_0_l, sqrt_0. lra.
Qed.

(** ** What the metric and the loss compute, on concrete batches *)

Lemma quotient_Qeq (n n' d d' : list Q) :
  Forall2 Qeq n n' -> Forall2 Qeq d d' -> quotient n d = quotient n' d'.
Proof.
  intros Hn. revert d d'.
  induction Hn as [|x x' n n' Hx _ IH]; intros d d' Hd; [reflexivity|].
  destruct Hd as [|y y' d d' Hy Hd]; [reflexivity|].
  cbn [quotient zip_with]. fold (quotient n d). fold (quotient n' d').
  rewrite (IH d d' Hd), (Qeq_eqR _ _ Hx), (Qeq_eqR _ _ Hy). reflexivity.
Qed.

Lemma pearson_Qeq (x y : list Q) (n d : Q) :
  (Qsum (zip_with Qmult (centered x) (centered y)) == n)%Q ->
  (Qsum (map (fun v => v * v) (centered x))
   * Qsum (map (fun v => v * v) (centered y)) == d)%Q ->
  pearson x y = (Q2R n / (sqrt (Q2R d) + epsilon))%R.
Proof.
  intros Hn Hd. unfold pearson. cbv zeta.
  rewrite (Qeq_eqR _ _ Hn), (Qeq_eqR _ _ Hd). reflexivity.
Qed.

Lemma Q2R_inject_Z (z : Z) : Q2R (inject_Z z) = IZR z.
Proof. unfold Q2R, inject_Z. cbn [Qnum Qden]. lra. Qed.

Lemma sqrt_of_square (x y : R) : (0 <= y)%R -> (y * y = x)%R -> sqrt x = y.
Proof. intros Hy <-. apply sqrt_square, Hy. Qed.

Lemma pearson_corr_on_opposed :
  pearson_corr rising_truth falling_prediction = (12 / (13 + 1e-12))%R.
Proof.
  unfold pearson_corr.
  destruct (pearson_corr_nd rising_truth falling_prediction)
    as [n d] eqn:End.
  assert (Hn : Forall2 Qeq n [12; 12]%Q).
  { change n with (n, d).1. rewrite <- End. vm_compute.
    repeat constructor. }
  assert (Hd : Forall2 Qeq d [169; 169]%Q).
  { change d with (n, d).2. rewrite <- End. vm_compute.
    repeat constructor. }
  rewrite (quotient_Qeq _ _ _ _ Hn Hd).
  unfold quotient, Rmean. cbn [zip_with Rsum fold_right length INR].
  change 12%Q with (inject_Z 12). change 169%Q with (inject_Z 169).
  rewrite !Q2R_inject_Z.
  rewrite (sqrt_of_square 169 13) by lra.
  unfold epsilon. field; lra.
Qed.

Lemma pearson_corr_spec_on_opposed :
  pearson_corr_spec rising_truth falling_prediction
  = (- (1 / 2) / (1 / 2 + 1e-12))%R.
Proof.
  unfold pearson_corr_spec.
  assert (Ht : K_cast (K_argmax rising_truth) = [[0; 1]; [5; 6]]%Q)
    by (vm_compute; reflexivity).
  assert (Hp : K_cast (K_argmax falling_prediction) = [[1; 0]; [6; 5]]%Q)
    by (vm_compute; reflexivity).
  rewrite Ht, Hp. cbn [zip_with].
  rewrite (pearson_Qeq [0; 1]%Q [1; 0]%Q (- (1 # 2)) (1 # 4))
    by (vm_compute; reflexivity).
  rewrite (pearson_Qeq [5; 6]%Q [6; 5]%Q (- (1 # 2)) (1 # 4))
    by (vm_compute; reflexivity).
  unfold Rmean. cbn [Rsum fold_right length INR].
  unfold Q2R. cbn [Qnum Qden Qopp]. rewrite !opp_IZR.
  rewrite (sqrt_of_square (1 * / 4) (1 / 2)) by lra.
  unfold epsilon. field; lra.
Qed.

Lemma Rlt_quotient (a b c : R) :
  (0 < c)%R -> (a * c < b)%R -> (a < b / c)%R.
Proof.
  intros Hc H. apply (Rmult_lt_reg_r c); [exact Hc|].
  unfold Rdiv. rewrite Rmult_assoc, Rinv_l by lra. lra.
Qed.

Lemma Rquotient_lt (a b c : R) :
  (0 < c)%R -> (b < a * c)%R -> (b / c < a)%R.
Proof.
  intros Hc H. apply (Rmult_lt_reg_r c); [exact Hc|].
  unfold Rdiv. rewrite Rmult_assoc, Rinv_l by lra. lra.
Qed.

(** On a batch of one sample the mean over the batch is the mean of the
    sample, and the metric is the statistic of the label sequences. *)
Lemma pearson_corr_single_sample (s p : list (list Q)) :
  pearson_corr [s] [p] = pearson_corr_spec [s] [p].
Proof.
  unfold pearson_corr, pearson_corr_nd, pearson_corr_spec.
  unfold K_cast, K_argmax, K_mean, sub2, mul2, square2, sum_last2, quotient.
  cbn [map zip_with concat]. rewrite !app_nil_r. reflexivity.
Qed.

(** C3: the metric at a batch of two samples whose predicted labels fall
    where the true labels rise.  The code centers every sequence by the mean
    over the whole batch and returns 12/(13 + 1e-12), above 0.9; the Pearson
    correlation between the true and the predicted label sequence of each
    sample is -(1/2)/(1/2 + 1e-12), below -0.9. *)
Theorem pearson_corr_batch_centering :
  pearson_corr rising_truth falling_prediction = (12 / (13 + 1e-12))%R /\
  pearson_corr_spec rising_truth falling_prediction
    = (- (1 / 2) / (1 / 2 + 1e-12))%R /\
  (9 / 10 < pearson_corr rising_truth falling_prediction)%R /\
  (pearson_corr_spec rising_truth falling_prediction < - (9 / 10))%R /\
  pearson_corr rising_truth falling_prediction
    <> pearson_corr_spec rising_truth falling_prediction.
Proof.
  rewrite pearson_corr_on_opposed, pearson_corr_spec_on_opposed.
  assert (H1 : (9 / 10 < 12 / (13 + 1e-12))%R).
  { apply Rlt_quotient; lra. }
  assert (H2 : (- (1 / 2) / (1 / 2 + 1e-12) < - (9 / 10))%R).
  { apply Rquotient_lt; lra. }
  repeat split; try assumption; try reflexivity. lra.
Qed.

Lemma pearson_loss_on_opposed :
  pearson_loss truth_5_6 prediction_6_5
  = (- ((803 / 2) / (807 / 2 + 1e-12)))%R.
Proof.
  unfold pearson_loss.
  destruct (pearson_loss_nd truth_5_6 prediction_6_5) as [n d] eqn:End.
  assert (Hn : Forall2 Qeq n [803 # 2]%Q).
  { change n with (n, d).1. rewrite <- End. vm_compute.
    repeat constructor. }
  assert (Hd : Forall2 Qeq d [651249 # 4]%Q).
  { change d with (n, d).2. rewrite <- End. vm_compute.
    repeat constructor. }
  rewrite (quotient_Qeq _ _ _ _ Hn Hd).
  unfold quotient, Rmean. cbn [zip_with Rsum fold_right length INR].
  unfold Q2R. cbn [Qnum Qden].
  rewrite (sqrt_of_square (651249 * / 4) (807 / 2)) by lra.
  unfold epsilon. field; lra.
Qed.

Lemma pearson_loss_spec_on_opposed :
  pearson_loss_spec truth_5_6 prediction_6_5
  = ((2 / 7) / (12 / 7 + 1e-12))%R.
Proof.
  unfold pearson_loss_spec, truth_5_6, prediction_6_5.
  cbn [map zip_with].
  rewrite (pearson_Qeq _ _ (- (2 # 7)) (144 # 49))
    by (vm_compute; reflexivity).
  unfold Rmean. cbn [Rsum fold_right length INR].
  unfold Q2R. cbn [Qnum Qden Qopp]. rewrite !opp_IZR.
  rewrite (sqrt_of_square (144 * / 49) (12 / 7)) by lra.
  unfold epsilon. field; lra.
Qed.

Lemma pearson_corr_spec_on_5_6 :
  pearson_corr_spec truth_5_6 prediction_6_5
  = (- (1 / 2) / (1 / 2 + 1e-12))%R.
Proof.
  unfold pearson_corr_spec.
  assert (Ht : K_cast (K_argmax truth_5_6) = [[5; 6]]%Q)
    by (vm_compute; reflexivity).
  assert (Hp : K_cast (K_argmax prediction_6_5) = [[6; 5]]%Q)
    by (vm_compute; reflexivity).
  rewrite Ht, Hp. cbn [zip_with].
  rewrite (pearson_Qeq [5; 6]%Q [6; 5]%Q (- (1 # 2)) (1 # 4))
    by (vm_compute; reflexivity).
  unfold Rmean. cbn [Rsum fold_right length INR].
  unfold Q2R. cbn [Qnum Qden Qopp]. rewrite !opp_IZR.
  rewrite (sqrt_of_square (1 * / 4) (1 / 2)) by lra.
  unfold epsilon. field; lra.
Qed.

(** C4: the loss at one sample whose predicted labels fall where the true
    labels rise.  The code subtracts the mean of the label indices (5.5)
    from the entries of the one-hot tensors and returns
    -(803/2)/(807/2 + 1e-12), below -0.99, close to the least value the loss
    can take; the negated Pearson correlation between the true and the
    predicted sequence, each centered by its own mean, is
    (2/7)/(12/7 + 1e-12) > 0 on the tensor entries and
    (1/2)/(1/2 + 1e-12) > 0.9 on the label sequences. *)
Theorem pearson_loss_not_negated_correlation :
  pearson_loss truth_5_6 prediction_6_5
    = (- ((803 / 2) / (807 / 2 + 1e-12)))%R /\
  pearson_loss_spec truth_5_6 prediction_6_5
    = ((2 / 7) / (12 / 7 + 1e-12))%R /\
  (pearson_loss truth_5_6 prediction_6_5 < - (99 / 100))%R /\
  (0 < pearson_loss_spec truth_5_6 prediction_6_5)%R /\
  (9 / 10 < - pearson_corr_spec truth_5_6 prediction_6_5)%R /\
  pearson_loss truth_5_6 prediction_6_5
    <> pearson_loss_spec truth_5_6 prediction_6_5.
Proof.
  rewrite pearson_loss_on_opposed, pearson_loss_spec_on_opposed,
    pearson_corr_spec_on_5_6.
  assert (H1 : (99 / 100 < (803 / 2) / (807 / 2 + 1e-12))%R).
  { apply Rlt_quotient; lra. }
  assert (H2 : (0 < (2 / 7) / (12 / 7 + 1e-12))%R).
  { apply Rdiv_lt_0_compat; lra. }
  assert (H3 : (- (1 / 2) / (1 / 2 + 1e-12) < - (9 / 10))%R).
  { apply Rquotient_lt; lra. }
  repeat split; try assumption; try reflexivity; lra.
Qed.

(** * Further properties of the builder *)

Lemma conv_bn_nodes (g : list node) (x nb_filter filter_length : nat) :
  conv_bn x nb_filter filter_length g
  = (S (length g),
     g ++ [Node (Convolution1D nb_filter filter_length relu same) [x];
           Node (BatchNormalization 0 1) [length g]]).
Proof.
  unfold conv_bn, bind, call, ret. cbv beta iota zeta.
  rewrite length_app, <- app_assoc. cbn [length app].
  f_equal. lia.
Qed.

Lemma call_no_shape (g : list node) (l : layer) (xs : list nat) :
  match arg_shapes (infer g) xs with
  | Some ins => output_shape l ins = None
  | None => True
  end ->
  shape_of (call l xs g).2 (call l xs g).1 = None.
Proof.
  intros H. unfold call, shape_of. cbn [fst snd].
  rewrite infer_snoc. unfold infer_node. cbn [args op].
  rewrite lookup_app_r by (rewrite infer_length; lia).
  rewrite infer_length, Nat.sub_diag. cbn [lookup list_lookup].
  destruct (arg_shapes (infer g) xs); [rewrite H|]; reflexivity.
Qed.

(** [conv_bn] on a tensor of [steps] steps yields a tensor of the same
    number of steps and [nb_filter] channels, whatever the filter length and
    the channels of the input; it appends its two layers to the graph and
    returns the second; nothing that was in the graph changes. *)
Theorem conv_bn_keeps_steps (g : list node)
    (x nb_filter filter_length steps channels : nat) :
  shape_of g x = Some [steps; channels] ->
  let r := conv_bn x nb_filter filter_length g in
  shape_of r.2 r.1 = Some [steps; nb_filter] /\
  r.1 = length g + 1 /\
  length r.2 = length g + 2 /\
  g `prefix_of` r.2 /\
  extends g r.2.
Proof.
  intros Hx r.
  destruct (conv_bn_shape g x nb_filter filter_length steps channels Hx)
    as [Hs He].
  split; [exact Hs|]. split; [|split; [|split; [|exact He]]];
    subst r; rewrite conv_bn_nodes; cbn [fst snd].
  - lia.
  - rewrite length_app. cbn [length]. lia.
  - eexists. reflexivity.
Qed.

Lemma conv_bn_keeps_steps_witness :
  shape_of (conv_bn 0 64 5 [Node (Input [100; 2] float32 "x") []]).2
           (conv_bn 0 64 5 [Node (Input [100; 2] float32 "x") []]).1
  = Some [100; 64].
Proof.
  destruct (conv_bn_keeps_steps [Node (Input [100; 2] float32 "x") []]
              0 64 5 100 2) as [H _]; [reflexivity | exact H].
Defined.

(** [conv_bn] on a tensor that is not a sequence of channel vectors (its
    shape is unknown, or is not a pair of steps and channels) yields a tensor
    without a shape: the framework's shape-mismatch error. *)
Theorem conv_bn_rejects_other_ranks (g : list node)
    (x nb_filter filter_length : nat) :
  (forall steps channels, shape_of g x <> Some [steps; channels]) ->
  shape_of (conv_bn x nb_filter filter_length g).2
           (conv_bn x nb_filter filter_length g).1 = None.
Proof.
  intros Hx. unfold conv_bn, bind, ret.
  pose proof (call_no_shape g
    (Convolution1D nb_filter filter_length relu same) [x]) as Hc.
  destruct (call (Convolution1D nb_filter filter_length relu same) [x] g)
    as [c g1] eqn:Ec. cbn [fst snd] in Hc.
  assert (Hnone : shape_of g1 c = None).
  { apply Hc. unfold shape_of in Hx. cbn [arg_shapes].
    destruct (infer g !! x) as [[s|]|]; try exact I.
    destruct s as [|a [|b [|? ?]]]; try reflexivity.
    exfalso. apply (Hx a b). reflexivity. }
  pose proof (call_no_shape g1 (BatchNormalization 0 1) [c]) as Hb.
  destruct (call (BatchNormalization 0 1) [c] g1) as [b g2].
  cbn [fst snd] in *. apply Hb. cbn [arg_shapes].
  unfold shape_of in Hnone.
  destruct (infer g1 !! c) as [[s|]|]; try exact I. discriminate.
Qed.

Lemma conv_bn_rejects_other_ranks_witness :
  shape_of (conv_bn 0 64 5 [Node (Input [100] float32 "x") []]).2
           (conv_bn 0 64 5 [Node (Input [100] float32 "x") []]).1
  = None.
Proof.
  apply (conv_bn_rejects_other_ranks [Node (Input [100] float32 "x") []]).
  intros steps channels. discriminate.
Defined.

Lemma inception_cell_appends (g : list node) (x : nat) :
  (inception_cell x g).1 = length g + 15 /\
  length (inception_cell x g).2 = length g + 16 /\
  g `prefix_of` (inception_cell x g).2.
Proof.
  unfold inception_cell, bind, ret. rewrite !conv_bn_nodes.
  cbv beta iota zeta. unfold call. rewrite !conv_bn_nodes.
  cbv beta iota zeta. cbn [fst snd].
  rewrite !length_app. cbn [length].
  split; [lia|]. split; [lia|].
  rewrite <- !app_assoc. eexists. reflexivity.
Qed.

(** An inception cell on a tensor of [steps] steps yields a tensor of the
    same number of steps and 64 + 64 + 96 + 32 = 256 channels, whatever the
    channels of its input; it appends its 16 layers to the graph and returns
    the last, the merge; nothing that was in the graph changes. *)
Theorem inception_cell_channels (g : list node) (x steps channels : nat) :
  shape_of g x = Some [steps; channels] ->
  let r := inception_cell x g in
  shape_of r.2 r.1 = Some [steps; 256] /\
  r.1 = length g + 15 /\
  length r.2 = length g + 16 /\
  g `prefix_of` r.2 /\
  extends g r.2.
Proof.
  intros Hx r.
  destruct (inception_cell_shape g x steps channels Hx) as [Hs He].
  destruct (inception_cell_appends g x) as (H1 & H2 & H3).
  repeat split; assumption.
Qed.

Lemma inception_cell_channels_witness :
  shape_of (inception_cell 0 [Node (Input [100; 2] float32 "x") []]).2
           (inception_cell 0 [Node (Input [100; 2] float32 "x") []]).1
  = Some [100; 256].
Proof.
  destruct (inception_cell_channels [Node (Input [100; 2] float32 "x") []]
              0 100 2) as [H _]; [reflexivity | exact H].
Defined.

(** Cells stack: any number [n] >= 1 of inception cells applied one after
    the other, as the loop of [build_model] does for [n] = 3, keeps the steps,
    yields 256 channels and appends 16 layers per cell. *)
Theorem inception_cells_stack (n : nat) (g : list node)
    (x steps channels : nat) :
  shape_of g x = Some [steps; channels] ->
  let r := for_range (S n) inception_cell x g in
  shape_of r.2 r.1 = Some [steps; 256] /\
  length r.2 = length g + 16 * S n /\
  g `prefix_of` r.2 /\
  extends g r.2.
Proof.
  revert g x channels. induction n as [|n IH]; intros g x channels Hx r.
  - subst r. cbn [for_range]. unfold bind, ret.
    destruct (inception_cell_shape g x steps channels Hx) as [Hs He].
    destruct (inception_cell_appends g x) as (_ & Hl & Hp).
    destruct (inception_cell x g) as [y g']. cbn [fst snd] in *.
    repeat split; try assumption; lia.
  - subst r.
    change (for_range (S (S n)) inception_cell x)
      with (bind (inception_cell x) (for_range (S n) inception_cell)).
    unfold bind.
    destruct (inception_cell_shape g x steps channels Hx) as [Hs He].
    destruct (inception_cell_appends g x) as (_ & Hl & Hp).
    destruct (inception_cell x g) as [y g']. cbn [fst snd] in *.
    destruct (IH g' y 256 Hs) as (Hs' & Hl' & Hp' & He').
    split; [exact Hs'|]. split; [lia|].
    split; [etransitivity; eassumption|].
    eapply extends_trans; eassumption.
Qed.

Lemma inception_cells_stack_witness :
  length (for_range 3 inception_cell 0
            [Node (Input [100; 2] float32 "x") []]).2 = 1 + 16 * 3.
Proof.
  destruct (inception_cells_stack 2 [Node (Input [100; 2] float32 "x") []]
              0 100 2) as (_ & H & _); [reflexivity | exact H].
Defined.

(** ** Every shape of the model *)

Lemma call_infer (g : list node) (l : layer) (xs : list nat)
    (ins : list (list nat)) (s : list nat) :
  arg_shapes (infer g) xs = Some ins ->
  output_shape l ins = Some s ->
  infer (call l xs g).2 = infer g ++ [Some s].
Proof.
  intros Hargs Hout. unfold call. cbn [snd].
  rewrite infer_snoc. unfold infer_node. cbn [args op].
  rewrite Hargs, Hout. reflexivity.
Qed.

Lemma conv_bn_infer (g : list node)
    (x nb_filter filter_length steps channels : nat) :
  shape_of g x = Some [steps; channels] ->
  infer (conv_bn x nb_filter filter_length g).2
  = infer g ++ [Some [steps; nb_filter]; Some [steps; nb_filter]].
Proof.
  intros Hx. unfold conv_bn, bind, ret.
  pose proof (call_infer g (Convolution1D nb_filter filter_length relu same)
                [x] [[steps; channels]] [steps; nb_filter]) as Hi.
  destruct (call_shape g (Convolution1D nb_filter filter_length relu same)
              [x] [[steps; channels]] [steps; nb_filter]) as [Hc _].
  { apply arg_shapes_cons; [exact Hx | reflexivity]. }
  { cbn [output_shape]. rewrite conv_output_length_same. reflexivity. }
  destruct (call (Convolution1D nb_filter filter_length relu same) [x] g)
    as [c g1]. cbn [fst snd] in Hc, Hi.
  pose proof (call_infer g1 (BatchNormalization 0 1) [c]
                [[steps; nb_filter]] [steps; nb_filter]) as Hi'.
  destruct (call (BatchNormalization 0 1) [c] g1) as [b g2].
  cbn [fst snd] in *. rewrite Hi', Hi, <- app_assoc; try reflexivity.
  - apply arg_shapes_cons; [exact Hx | reflexivity].
  - cbn [output_shape]. rewrite conv_output_length_same. reflexivity.
  - apply arg_shapes_cons; [exact Hc | reflexivity].
Qed.

(** As [run_conv_bn], and records the shapes the step adds. *)
Ltac step_conv_bn Hx :=
  match goal with
  | |- context [conv_bn ?x ?nf ?fl ?g] =>
      let Hi := fresh "Hi" in
      pose proof (conv_bn_infer g x nf fl _ _ Hx) as Hi;
      run_conv_bn Hx; cbn [fst snd] in Hi
  end.

Ltac step_call ins s :=
  match goal with
  | |- context [call ?l ?xs ?g] =>
      let Hi := fresh "Hi" in
      assert (Hi : infer (call l xs g).2 = infer g ++ [Some s]);
      [ apply (call_infer g l xs ins s);
        [ repeat (apply arg_shapes_cons; [eassumption|]); reflexivity
        | try reflexivity ]
      | run_call ins s; [..| cbn [fst snd] in Hi] ]
  end.

Ltac gather_shapes :=
  repeat match goal with
         | H : infer ?g = _ |- context [infer ?g] => rewrite H; clear H
         end;
  rewrite <- ?app_assoc.

Lemma inception_cell_infer (g : list node) (x steps channels : nat) :
  shape_of g x = Some [steps; channels] ->
  infer (inception_cell x g).2
  = infer g ++ map Some (cell_summary steps channels).
Proof.
  intros Hx. unfold inception_cell, bind, ret.
  step_conv_bn Hx. forward He.
  step_conv_bn Hx. forward He0.
  step_conv_bn Hs0. forward He1.
  step_conv_bn Hx. forward He2.
  step_conv_bn Hs2. forward He3.
  step_conv_bn Hs3. forward He4.
  step_call [[steps; channels]] [steps; channels].
  { cbn [output_shape]. rewrite conv_output_length_same. reflexivity. }
  { cbn [output_shape]. rewrite conv_output_length_same. reflexivity. }
  forward He5.
  step_conv_bn Hs5. forward He6.
  step_call [[steps; 64]; [steps; 64]; [steps; 96]; [steps; 32]] [steps; 256].
  { cbn [output_shape]. rewrite decide_True by reflexivity.
    apply (concat_shapes_channels steps 64 [64; 96; 32]). }
  { cbn [output_shape]. rewrite decide_True by reflexivity.
    apply (concat_shapes_channels steps 64 [64; 96; 32]). }
  gather_shapes. reflexivity.
Qed.

Ltac step_cell Hx :=
  match goal with
  | |- context [inception_cell ?x ?g] =>
      let Hi := fresh "Hi" in
      let Hs := fresh "Hc" in
      let He := fresh "Ec" in
      let y := fresh "cell" in
      let g' := fresh "g" in
      pose proof (inception_cell_infer g x _ _ Hx) as Hi;
      destruct (inception_cell_shape g x _ _ Hx) as [Hs He];
      destruct (inception_cell x g) as [y g'];
      cbn [fst snd] in Hi, Hs, He |- *
  end.

Lemma build_model_graph_infer (num_timesteps : nat) :
  infer (build_model_graph num_timesteps []).2
  = map Some (model_summary num_timesteps).
Proof.
  unfold build_model_graph, bind, ret.
  step_call (@nil (list nat)) [1].
  step_call (@nil (list nat)) [num_timesteps; 1]. forward He0.
  step_call [[1]] [num_timesteps; 1]. forward He1.
  step_call [[num_timesteps; 1]] [num_timesteps].
  { cbn. f_equal. f_equal. lia. }
  { cbn. f_equal. f_equal. lia. }
  forward He2.
  step_call [[num_timesteps]] [num_timesteps; 1]. forward He3.
  step_call [[num_timesteps; 1]] [num_timesteps; 1]. forward He4.
  step_call [[num_timesteps; 1]; [num_timesteps; 1]] [num_timesteps; 2].
  { cbn [output_shape]. rewrite decide_True by reflexivity.
    apply (concat_shapes_channels num_timesteps 1 [1]). }
  { cbn [output_shape]. rewrite decide_True by reflexivity.
    apply (concat_shapes_channels num_timesteps 1 [1]). }
  cbn [for_range]. unfold bind, ret.
  step_cell Hs5. step_cell Hc. step_cell Hc0.
  step_call [[num_timesteps; 256]] [num_timesteps; 128].
  forward He6.
  step_call [[num_timesteps; 128]] [num_timesteps; 7].
  cbn [snd]. gather_shapes. reflexivity.
Qed.


(** * Further properties of the model graph *)

Ltac decide_by_computation :=
  match goal with
  | |- ?P =>
      let d := constr:(_ : Decision P) in
      apply (@bool_decide_unpack P d); vm_compute; exact I
  end.

(** For every number of timesteps the graph of the model is in dependency
    order, its only layers without arguments are the two inputs, its last
    tensor is the output, and every other tensor is used by a later layer:
    no layer is built and left out of the prediction. *)
Theorem build_model_dag (num_timesteps : nat) :
  let m := build_model num_timesteps in
  let g := layers m in
  inputs_precede g /\
  Forall (fun n => args n = [] -> kind (op n) = "Input") g /\
  output m = [length g - 1] /\
  Forall (feeds_later g) (seq 0 (length g - 1)) /\
  ~ feeds_later g (length g - 1).
Proof.
  intros m g. subst m g. unfold inputs_precede, feeds_later.
  split; [decide_by_computation|].
  split; [decide_by_computation|].
  split; [vm_compute; reflexivity|].
  split; decide_by_computation.
Qed.

(** The dataset channel of a sample is the embedding row of its dataset
    identifier, the same row at every timestep. *)
Theorem embed_dataset_constant (num_timesteps : nat)
    (table : list (list R)) (dataset : Z) (row : list R) :
  (0 <= dataset)%Z ->
  table !! Z.to_nat dataset = Some row ->
  embed_dataset (build_model num_timesteps) table dataset
  = Some (replicate num_timesteps row).
Proof.
  intros Hpos Hrow.
  destruct (build_model_embedding_input num_timesteps dataset) as [He Hi].
  cbv zeta in He, Hi. unfold embed_dataset. rewrite He, Hi.
  assert (Hl : embedding_lookup table dataset = Some row).
  { unfold embedding_lookup.
    rewrite (proj2 (Z.ltb_ge dataset 0)) by exact Hpos. exact Hrow. }
  clear He Hi. apply mapM_Some.
  induction num_timesteps as [|n IH]; constructor; assumption.
Qed.

Lemma embed_dataset_constant_witness :
  embed_dataset (build_model 3) [[1%R]; [2%R]] 1%Z
  = Some (replicate 3 [2%R]).
Proof.
  apply (embed_dataset_constant 3 [[1%R]; [2%R]] 1%Z [2%R]);
    [lia | reflexivity].
Defined.

(** * Further properties of the metrics *)

(** [str] can be read back: distinct numbers have distinct strings. *)
Lemma str_inj (i j : nat) : str i = str j -> i = j.
Proof.
  unfold str. intros H.
  assert (Hparse : forall n,
    option_map Nat.of_uint
      (NilZero.uint_of_string (NilZero.string_of_uint (Nat.to_uint n)))
    = Some n).
  { intros n. pose proof (DecimalNat.Unsigned.of_to n) as Hn.
    destruct (Nat.to_uint n) eqn:E;
      try (rewrite NilZero.usu by discriminate; cbn [option_map];
           rewrite Hn; reflexivity).
    rewrite NilZero.usu_nil. cbn [option_map]. rewrite <- Hn. reflexivity. }
  pose proof (Hparse i) as Hi. rewrite H, Hparse in Hi. congruence.
Qed.

(** The metrics of two different bins report under different keys, so
    merging their reports loses neither value. *)
Theorem bin_percent_keys_distinct (i j : nat)
    (y_true y_true' y_pred y_pred' : tensor3) :
  i <> j ->
  bin_percent i y_true y_pred ##ₘ bin_percent j y_true' y_pred' /\
  size (bin_percent i y_true y_pred ∪ bin_percent j y_true' y_pred') = 2.
Proof.
  intros Hij. unfold bin_percent.
  assert (Hk : str i <> str j) by (intros H; apply Hij, str_inj, H).
  assert (Hd : forall v w : Q,
    ({[str i := v]} : gmap string Q) ##ₘ {[str j := w]}).
  { intros v w. apply map_disjoint_singleton_l_2.
    apply lookup_singleton_ne. congruence. }
  split; [apply Hd|].
  rewrite map_size_disj_union by apply Hd.
  rewrite !map_size_singleton. reflexivity.
Qed.

Lemma bin_percent_keys_distinct_witness :
  size (bin_percent 2 [] [[one_hot 2]] ∪ bin_percent 5 [] [[one_hot 2]]) = 2.
Proof.
  apply (bin_percent_keys_distinct 2 5 [] [] [[one_hot 2]] [[one_hot 2]]).
  discriminate.
Defined.

(** A bin at or beyond the number of classes is never hit: on rows of 7
    classes the metric of bin [i] >= 7 reports 0. *)
Theorem bin_percent_beyond_classes (i : nat) (y_true y_pred : tensor3) :
  7 <= i ->
  Forall (Forall (fun row => length row = 7)) y_pred ->
  exists v, bin_percent i y_true y_pred = {[ str i := v ]} /\ (v == 0)%Q.
Proof.
  intros Hi Hrows. eexists. split; [reflexivity|].
  rewrite K_mean_equal.
  assert (Hflat : concat (K_argmax y_pred) = map argmax (concat y_pred))
    by apply concat_map_map.
  rewrite Hflat, Qsum_indicator_count.
  assert (Hnone : filter (fun k => k = i) (map argmax (concat y_pred)) = []).
  { apply Forall_concat in Hrows. clear Hflat.
    induction Hrows as [|row l Hrow _ IH]; [reflexivity|].
    cbn [map]. rewrite filter_cons, decide_False; [exact IH|].
    assert (argmax row < length row)
      by (apply argmax_lt; intros ->; discriminate).
    lia. }
  rewrite Hnone. cbn [length Z.of_nat]. unfold Qdiv. ring.
Qed.

Lemma bin_percent_beyond_classes_witness :
  exists v, bin_percent 9 [] [[one_hot 2]] = {[ str 9 := v ]} /\ (v == 0)%Q.
Proof.
  apply (bin_percent_beyond_classes 9 [] [[one_hot 2]]); [lia|].
  repeat constructor.
Defined.

(** * Further properties of the metric and the loss *)

(** ** The values lie strictly between -1 and 1 *)

Lemma cauchy_step_R (a c A B C D : R) :
  (0 <= A -> 0 <= B -> 0 <= C -> 0 <= D ->
   a * a <= A * B -> c * c <= C * D ->
   (a + c) * (a + c) <= (A + C) * (B + D))%R.
Proof.
  intros HA HB HC HD Ha Hc.
  assert (Hac : (2 * (a * c) <= A * D + B * C)%R).
  { destruct (Rle_or_lt (2 * (a * c)) (A * D + B * C)) as [H|H]; [exact H|].
    exfalso.
    assert (H0 : (0 <= A * D + B * C)%R) by nra.
    assert (H1 : ((a * a) * (c * c) <= (A * B) * (C * D))%R).
    { apply Rmult_le_compat; nra. }
    assert (H2 : ((A * D + B * C) * (A * D + B * C)
                  < (2 * (a * c)) * (2 * (a * c)))%R) by nra.
    pose proof (Rle_0_sqr (A * D - B * C)) as H3. unfold Rsqr in H3.
    nra. }
  nra.
Qed.

Lemma cauchy_step (a c A B C D : Q) :
  (0 <= A -> 0 <= B -> 0 <= C -> 0 <= D ->
   a * a <= A * B -> c * c <= C * D ->
   (a + c) * (a + c) <= (A + C) * (B + D))%Q.
Proof.
  intros HA HB HC HD Ha Hc. apply Rle_Qle.
  rewrite !Q2R_mult, !Q2R_plus.
  apply Qle_Rle in HA, HB, HC, HD, Ha, Hc.
  rewrite !Q2R_mult in Ha, Hc.
  replace (Q2R 0) with 0%R in * by (unfold Q2R; cbn; lra).
  apply cauchy_step_R; assumption.
Qed.

Ltac qreplace a b :=
  let E := fresh "E" in
  assert (E : (a == b)%Q) by ring; rewrite E; clear E.

Lemma Qsum_squares_nonneg (x : list Q) :
  (0 <= Qsum (map (fun v => v * v) x))%Q.
Proof.
  apply Qsum_nonneg, Forall_map, Forall_forall. intros v _.
  apply square_nonneg.
Qed.

(** Cauchy-Schwarz on two rows; the products stop at the shorter row. *)
Lemma cauchy_rows (x y : list Q) :
  (Qsum (zip_with Qmult x y) * Qsum (zip_with Qmult x y)
   <= Qsum (map (fun v => v * v) x) * Qsum (map (fun v => v * v) y))%Q.
Proof.
  revert y. induction x as [|a x IH]; intros [|b y].
  - cbn. apply Qle_refl.
  - cbn [zip_with map Qsum fold_right].
    qreplace (0 * 0)%Q 0%Q.
    qreplace (0 * (b * b + Qsum (map (fun v => v * v) y)))%Q 0%Q.
    apply Qle_refl.
  - cbn [zip_with Qsum fold_right].
    qreplace (0 * 0)%Q 0%Q.
    apply Qmult_le_0_compat; [apply Qsum_squares_nonneg | apply Qle_refl].
  - cbn [zip_with map Qsum fold_right].
    fold (Qsum (zip_with Qmult x y)).
    fold (Qsum (map (fun v => (v * v)%Q) x)).
    fold (Qsum (map (fun v => (v * v)%Q) y)).
    apply cauchy_step;
      [apply square_nonneg | apply square_nonneg
       | apply Qsum_squares_nonneg | apply Qsum_squares_nonneg | | apply IH].
    qreplace (a * b * (a * b))%Q (a * a * (b * b))%Q.
    apply Qle_refl.
Qed.

Lemma sum_squares_sample_nonneg (s : list (list Q)) :
  (0 <= Qsum (sum_last2 (square2 s)))%Q.
Proof. apply Qsum_nonneg, sum_squares2_nonneg. Qed.

(** Cauchy-Schwarz on two samples, summed over timesteps and classes. *)
Lemma cauchy_samples (s p : list (list Q)) :
  (Qsum (sum_last2 (mul2 s p)) * Qsum (sum_last2 (mul2 s p))
   <= Qsum (sum_last2 (square2 s)) * Qsum (sum_last2 (square2 p)))%Q.
Proof.
  revert p. induction s as [|x s IH]; intros [|y p].
  - cbn. apply Qle_refl.
  - change (mul2 [] (y :: p)) with (@nil (list Q)).
    change (Qsum (sum_last2 [])) with 0%Q.
    change (Qsum (sum_last2 (square2 []))) with 0%Q.
    qreplace (0 * 0)%Q 0%Q.
    qreplace (0 * Qsum (sum_last2 (square2 (y :: p))))%Q 0%Q.
    apply Qle_refl.
  - change (mul2 (x :: s) []) with (@nil (list Q)).
    change (Qsum (sum_last2 [])) with 0%Q.
    change (Qsum (sum_last2 (square2 []))) with 0%Q.
    qreplace (0 * 0)%Q 0%Q.
    apply Qmult_le_0_compat;
      [apply sum_squares_sample_nonneg | apply Qle_refl].
  - change (Qsum (sum_last2 (mul2 (x :: s) (y :: p))))
      with (Qsum (zip_with Qmult x y) + Qsum (sum_last2 (mul2 s p)))%Q.
    change (Qsum (sum_last2 (square2 (x :: s))))
      with (Qsum (map (fun v => v * v) x)
            + Qsum (sum_last2 (square2 s)))%Q.
    change (Qsum (sum_last2 (square2 (y :: p))))
      with (Qsum (map (fun v => v * v) y)
            + Qsum (sum_last2 (square2 p)))%Q.
    apply cauchy_step;
      [apply Qsum_squares_nonneg | apply Qsum_squares_nonneg
       | apply sum_squares_sample_nonneg | apply sum_squares_sample_nonneg
       | apply cauchy_rows | apply IH].
Qed.

(** A numerator whose square is at most the radicand gives a quotient
    strictly between -1 and 1. *)
Lemma quotient_entry_bounded (n d : Q) :
  (n * n <= d)%Q ->
  (-1 < Q2R n / (sqrt (Q2R d) + epsilon) < 1)%R.
Proof.
  intros H. apply Qle_Rle in H. rewrite Q2R_mult in H.
  pose proof epsilon_pos as Heps.
  pose proof (sqrt_pos (Q2R d)) as Hs.
  assert (Hd : (0 <= Q2R d)%R) by nra.
  assert (Hsq : (sqrt (Q2R d) * sqrt (Q2R d) = Q2R d)%R)
    by (apply sqrt_sqrt, Hd).
  assert (Hn : (- sqrt (Q2R d) <= Q2R n <= sqrt (Q2R d))%R) by (split; nra).
  split.
  - apply Rlt_quotient; lra.
  - apply Rquotient_lt; lra.
Qed.

Lemma Rmean_bounded (a b : R) (l : list R) :
  l <> [] ->
  Forall (fun q => (a < q < b)%R) l ->
  (a < Rmean l < b)%R.
Proof.
  intros Hne Hall. unfold Rmean.
  assert (Hsum : (a * INR (length l) < Rsum l < b * INR (length l))%R).
  { destruct Hall as [|q l [Hq1 Hq2] Hall]; [congruence|]. clear Hne.
    revert q Hq1 Hq2. induction Hall as [|q' l [Hq1' Hq2'] _ IH];
      intros q Hq1 Hq2.
    - rewrite Rsum_cons, Rsum_nil. cbn [length INR]. lra.
    - specialize (IH q' Hq1' Hq2'). rewrite Rsum_cons.
      change (length (q :: q' :: l)) with (S (length (q' :: l))).
      rewrite S_INR. lra. }
  assert (Hlen : (0 < INR (length l))%R).
  { apply lt_0_INR. destruct l; [congruence | cbn; lia]. }
  split; [apply Rlt_quotient | apply Rquotient_lt]; lra.
Qed.

Lemma corr_quotients_bounded (x y : list (list Q)) :
  Forall (fun q => (-1 < q < 1)%R)
    (quotient (sum_last2 (mul2 x y))
              (zip_with Qmult (sum_last2 (square2 x))
                              (sum_last2 (square2 y)))).
Proof.
  revert y. induction x as [|r x IH]; intros [|r' y]; try constructor.
  - apply quotient_entry_bounded, cauchy_rows.
  - apply IH.
Qed.

Lemma loss_quotients_bounded (x y : list (list (list Q))) :
  Forall (fun q => (-1 < q < 1)%R)
    (quotient (sum_last2 (sum_last3 (mul3 x y)))
              (zip_with Qmult (sum_last2 (sum_last3 (square3 x)))
                              (sum_last2 (sum_last3 (square3 y))))).
Proof.
  revert y. induction x as [|s x IH]; intros [|p y]; try constructor.
  - apply quotient_entry_bounded, cauchy_samples.
  - apply IH.
Qed.

Lemma quotient_nonempty (n d : list Q) :
  n <> [] -> d <> [] -> quotient n d <> [].
Proof. destruct n, d; cbn; congruence. Qed.





(** ** Symmetry *)

Lemma Qmult_swap (p q : Q) : Qmult p q = Qmult q p.
Proof.
  unfold Qmult. f_equal; [apply Z.mul_comm | apply Pos.mul_comm].
Qed.

Lemma zip_with_swap {A B} (f : A -> A -> B) (x y : list A) :
  (forall a b, f a b = f b a) -> zip_with f x y = zip_with f y x.
Proof.
  intros Hf. revert y. induction x as [|a x IH]; intros [|b y];
    try reflexivity.
  cbn [zip_with]. rewrite Hf, IH. reflexivity.
Qed.

Lemma mul2_swap (x y : list (list Q)) : mul2 x y = mul2 y x.
Proof.
  apply zip_with_swap. intros a b. apply zip_with_swap, Qmult_swap.
Qed.

Lemma mul3_swap (x y : list (list (list Q))) : mul3 x y = mul3 y x.
Proof. apply zip_with_swap, mul2_swap. Qed.

(** The metric and the loss do not tell the truth from the prediction:
    swapping the two tensors leaves both values unchanged. *)
Theorem pearson_symmetric (a b : tensor3) :
  pearson_corr a b = pearson_corr b a /\
  pearson_loss a b = pearson_loss b a.
Proof.
  unfold pearson_corr, pearson_loss, pearson_corr_nd, pearson_loss_nd.
  split.
  - rewrite mul2_swap.
    rewrite (zip_with_swap Qmult
               (sum_last2 (square2 (sub2 (K_cast (K_argmax a))
                                         (K_mean (K_cast (K_argmax a))))))
               _ Qmult_swap).
    reflexivity.
  - rewrite mul3_swap.
    rewrite (zip_with_swap Qmult
               (sum_last2 (sum_last3 (square3
                  (sub3 a (K_mean (K_cast (K_argmax a)))))))
               _ Qmult_swap).
    reflexivity.
Qed.

(** ** A prediction without variance *)

Lemma Qsum_zero (l : list Q) : Forall (Qeq 0) l -> (Qsum l == 0)%Q.
Proof.
  induction 1 as [|v l Hv _ IH]; [reflexivity|].
  cbn [Qsum fold_right]. fold (Qsum l). rewrite <- Hv, IH. ring.
Qed.

Lemma mean_constant (q : Q) (l : list Q) :
  l <> [] -> Forall (fun v => v = q) l -> (mean l == q)%Q.
Proof.
  intros Hne Hall. unfold mean.
  assert (Hsum : (Qsum l == q * inject_Z (Z.of_nat (length l)))%Q).
  { clear Hne. induction Hall as [|v l -> _ IH]; [cbn; ring|].
    cbn [Qsum fold_right length]. fold (Qsum l).
    rewrite IH, Nat2Z.inj_succ, <- Z.add_1_l, inject_Z_plus. ring. }
  rewrite Hsum. field.
  intros H0. destruct l; [congruence|].
  cbn [length] in H0. rewrite Nat2Z.inj_succ in H0.
  unfold Qeq, inject_Z in H0. cbn in H0. lia.
Qed.

Lemma products_with_zero (x y : list Q) :
  Forall (Qeq 0) y -> Forall (Qeq 0) (zip_with Qmult x y).
Proof.
  intros Hy. revert x. induction Hy as [|b y Hb _ IH]; intros [|a x];
    try constructor.
  - rewrite <- Hb. ring.
  - apply IH.
Qed.

Lemma numerators_with_zero (x y : list (list Q)) :
  Forall (Forall (Qeq 0)) y -> Forall (Qeq 0) (sum_last2 (mul2 x y)).
Proof.
  intros Hy. revert x. induction Hy as [|r y Hr _ IH]; intros [|r' x];
    try constructor.
  - symmetry. apply Qsum_zero, products_with_zero, Hr.
  - apply IH.
Qed.

Lemma quotient_of_zero (n d : list Q) :
  Forall (Qeq 0) n -> Forall (fun q => q = 0%R) (quotient n d).
Proof.
  intros Hn. revert d. induction Hn as [|a n Ha _ IH]; intros [|b d];
    try constructor.
  - rewrite <- (Qeq_eqR _ _ Ha). unfold Q2R at 1. cbn [Qnum Qden].
    unfold Rdiv. rewrite !Rmult_0_l. reflexivity.
  - apply IH.
Qed.

Lemma Rmean_of_zero (l : list R) :
  Forall (fun q => q = 0%R) l -> Rmean l = 0%R.
Proof.
  intros Hall. unfold Rmean.
  assert (Hsum : Rsum l = 0%R).
  { induction Hall as [|q l -> _ IH]; [reflexivity|].
    rewrite Rsum_cons, IH. lra. }
  rewrite Hsum. unfold Rdiv. apply Rmult_0_l.
Qed.

(** When every timestep of every sample is predicted to be the same class,
    the predicted labels have no variance; the metric, computed in exact
    arithmetic, is then 0 whatever the truth is: the constant [1e-12] makes
    the quotient 0 / 1e-12 rather than 0 / 0. *)
Theorem pearson_corr_constant_prediction (y_true y_pred : tensor3)
    (c : nat) :
  Forall (Forall (fun row => argmax row = c)) y_pred ->
  pearson_corr y_true y_pred = 0%R.
Proof.
  intros Hconst. unfold pearson_corr, pearson_corr_nd.
  apply Rmean_of_zero, quotient_of_zero, numerators_with_zero.
  set (labels := K_cast (K_argmax y_pred)).
  assert (Hall : Forall (Forall (fun v => v = inject_Z (Z.of_nat c))) labels).
  { subst labels. unfold K_cast, K_argmax. rewrite map_map.
    apply Forall_map. eapply Forall_impl; [exact Hconst|].
    intros s Hs. cbv beta. rewrite map_map. apply Forall_map.
    eapply Forall_impl; [exact Hs|]. intros row ->. reflexivity. }
  unfold sub2. apply Forall_map, Forall_forall. intros s Hs.
  apply Forall_map, Forall_forall. intros v Hv. cbv beta.
  assert (Hne : concat labels <> []).
  { intros Hnil. apply list_elem_of_In in Hs, Hv.
    assert (Hin : In v (concat labels))
      by (apply in_concat; exists s; split; assumption).
    rewrite Hnil in Hin. destruct Hin. }
  unfold K_mean. rewrite (mean_constant (inject_Z (Z.of_nat c)) _ Hne).
  - rewrite Forall_forall in Hall. specialize (Hall s Hs).
    rewrite Forall_forall in Hall. rewrite (Hall v Hv). ring.
  - apply Forall_concat, Hall.
Qed.

Lemma pearson_corr_constant_prediction_witness :
  pearson_corr rising_truth [[one_hot 3; one_hot 3]; [one_hot 3; one_hot 3]]
  = 0%R.
Proof.
  apply (pearson_corr_constant_prediction _ _ 3).
  repeat constructor.
Defined.

(** ** A prediction equal to the truth *)

Lemma zip_with_self (r : list Q) :
  zip_with Qmult r r = map (fun v => (v * v)%Q) r.
Proof.
  induction r as [|v r IH]; [reflexivity|].
  cbn [zip_with map]. rewrite IH. reflexivity.
Qed.

Lemma self_numerators2_nonneg (x : list (list Q)) :
  Forall (Qle 0) (sum_last2 (mul2 x x)).
Proof.
  induction x as [|r x IH]; [constructor|].
  constructor; [|exact IH]. rewrite zip_with_self.
  apply Qsum_squares_nonneg.
Qed.

Lemma mul2_self (s : list (list Q)) : mul2 s s = square2 s.
Proof.
  induction s as [|r s IH]; [reflexivity|].
  change (mul2 (r :: s) (r :: s)) with (zip_with Qmult r r :: mul2 s s).
  rewrite zip_with_self, IH. reflexivity.
Qed.

Lemma self_numerators3_nonneg (x : list (list (list Q))) :
  Forall (Qle 0) (sum_last2 (sum_last3 (mul3 x x))).
Proof.
  induction x as [|s x IH]; [constructor|].
  constructor; [|exact IH]. rewrite mul2_self.
  apply sum_squares_sample_nonneg.
Qed.

Lemma quotient_nonneg (n d : list Q) :
  Forall (Qle 0) n -> Forall (Rle 0) (quotient n d).
Proof.
  intros Hn. revert d. induction Hn as [|a n Ha _ IH]; intros [|b d];
    try constructor.
  - apply Qle_Rle in Ha.
    replace (Q2R 0) with 0%R in Ha by (unfold Q2R; cbn; lra).
    pose proof (sqrt_pos (Q2R b)). pose proof epsilon_pos.
    apply Rmult_le_pos; [exact Ha|]. apply Rlt_le, Rinv_0_lt_compat. lra.
  - apply IH.
Qed.

Lemma Rmean_nonneg (l : list R) : Forall (Rle 0) l -> (0 <= Rmean l)%R.
Proof.
  intros Hall. unfold Rmean.
  assert (Hsum : (0 <= Rsum l)%R).
  { induction Hall as [|q l Hq _ IH]; [rewrite Rsum_nil; lra|].
    rewrite Rsum_cons. lra. }
  destruct l as [|q l].
  - rewrite Rsum_nil. unfold Rdiv. rewrite Rmult_0_l. lra.
  - apply Rmult_le_pos; [exact Hsum|].
    apply Rlt_le, Rinv_0_lt_compat, lt_0_INR. cbn. lia.
Qed.


(** * Further properties of the batch generator *)

Section Resumption.

Context {Id Ca Sp Gen : Type}.
Variable next : Gen -> (Id * Ca * Sp) * Gen.


End Resumption.
